(** * A shallow embedding of the LLVM chunk builder of llv8
    (src/src/llvm/llvm-chunk.cc): the translation of a Hydrogen graph
    into an LLVM function, block by block and instruction by instruction. *)

From Stdlib Require Import ZArith Lia Bool.
From stdpp Require Import base gmap list strings.

Open Scope Z_scope.

(* ================================================================== *)
(** ** Tokens, comparison predicates and representations *)

(** The relational tokens of [Token::Value] that reach the comparison
    code; every other token is collapsed into [TOKEN_OTHER]. *)
Inductive Token :=
  | EQ | EQ_STRICT | NE | NE_STRICT | LT | GT | LTE | GTE
  | IN | INSTANCEOF | TOKEN_OTHER.

(** [llvm::CmpInst::Predicate], integer predicates plus the sentinel. *)
Inductive Predicate :=
  | ICMP_EQ | ICMP_NE
  | ICMP_UGT | ICMP_UGE | ICMP_ULT | ICMP_ULE
  | ICMP_SGT | ICMP_SGE | ICMP_SLT | ICMP_SLE
  | BAD_FCMP_PREDICATE.

Global Instance Predicate_eq_dec : EqDecision Predicate.
Proof. solve_decision. Defined.

(** [LLVMChunkBuilder::TokenToPredicate]; [None] is [UNREACHABLE()]. *)
Definition TokenToPredicate (op : Token) (is_unsigned : bool)
    : option Predicate :=
  match op with
  | EQ | EQ_STRICT => Some ICMP_EQ
  | NE | NE_STRICT => Some ICMP_NE
  | LT => Some (if is_unsigned then ICMP_ULT else ICMP_SLT)
  | GT => Some (if is_unsigned then ICMP_UGT else ICMP_SGT)
  | LTE => Some (if is_unsigned then ICMP_ULE else ICMP_SLE)
  | GTE => Some (if is_unsigned then ICMP_UGE else ICMP_SGE)
  | IN | INSTANCEOF | TOKEN_OTHER => None
  end.

(** Hydrogen's [Representation] kinds. *)
Inductive Representation :=
  | RNone | RSmi | RInteger32 | RDouble | RHeapObject | RTagged | RExternal.

Global Instance Representation_eq_dec : EqDecision Representation.
Proof. solve_decision. Defined.

(** [Representation::IsSmi()] and friends. *)
Definition IsSmi (r : Representation) : bool :=
  match r with RSmi => true | _ => false end.
Definition IsInteger32 (r : Representation) : bool :=
  match r with RInteger32 => true | _ => false end.
Definition IsDouble (r : Representation) : bool :=
  match r with RDouble => true | _ => false end.
Definition IsTagged (r : Representation) : bool :=
  match r with RTagged => true | _ => false end.

(** [Representation::Equals()]. *)
Definition Equals (a b : Representation) : bool :=
  match a, b with
  | RNone, RNone | RSmi, RSmi | RInteger32, RInteger32 | RDouble, RDouble
  | RHeapObject, RHeapObject | RTagged, RTagged | RExternal, RExternal => true
  | _, _ => false
  end.

(* ================================================================== *)
(** ** Smi tagging constants (x64) *)

Definition kSmiTagSize : Z := 1.

(** [kSmiShiftSize]: 31 when Smi values are 32 bits, 0 when 31 bits. *)
Definition kSmiShiftSize (smi_values_are_32_bits : bool) : Z :=
  if smi_values_are_32_bits then 31 else 0.

Definition kSmiShift (smi_values_are_32_bits : bool) : Z :=
  kSmiTagSize + kSmiShiftSize smi_values_are_32_bits.

(* ================================================================== *)
(** ** LLVM values and types *)

(** The values built by [llvm::IRBuilder]: each [Create*] call returns
    the instruction it inserted, which is itself a value. *)
Inductive LValue :=
  | LArg (pos : nat)                       (* function argument [pos] *)
  | LInt64 (z : Z)                         (* getInt64(z) *)
  | LAdd (a b : LValue)
  | LSub (a b : LValue)
  | LMul (a b : LValue)
  | LShl (a : LValue) (k : Z)
  | LLShr (a : LValue) (k : Z)
  | LICmp (p : Predicate) (a b : LValue)
  | LCondBr (c : LValue) (t f : nat).      (* block handles *)

Global Instance LValue_eq_dec : EqDecision LValue.
Proof. solve_decision. Defined.

(** What the IR builder appends to the current function. *)
Inductive LInstr :=
  | IEmit (v : LValue)
  | IBr (blk : nat)
  | IRet (v : LValue).

Definition two64 : Z := 2 ^ 64.

(** The i64 semantics of the arithmetic values, as unsigned 64-bit words
    ([args] gives the incoming argument words). *)
Fixpoint eval_i64 (args : nat -> Z) (v : LValue) : option Z :=
  match v with
  | LArg n => Some (args n mod two64)
  | LInt64 z => Some (z mod two64)
  | LAdd a b =>
      x ← eval_i64 args a; y ← eval_i64 args b; Some ((x + y) mod two64)
  | LSub a b =>
      x ← eval_i64 args a; y ← eval_i64 args b; Some ((x - y) mod two64)
  | LMul a b =>
      x ← eval_i64 args a; y ← eval_i64 args b; Some ((x * y) mod two64)
  | LShl a k => x ← eval_i64 args a; Some ((Z.shiftl x k) mod two64)
  | LLShr a k => x ← eval_i64 args a; Some (Z.shiftr x k)
  | LICmp _ _ _ | LCondBr _ _ _ => None
  end.

(** The i64 word of a (sign-extended) integer. *)
Definition to_i64 (x : Z) : Z := x mod two64.

(** [llvm::Type*]: the parameter vector starts as [nullptr]s. *)
Inductive LType := TNull | TInt64.

Global Instance LType_eq_dec : EqDecision LType.
Proof. solve_decision. Defined.

Record FunctionType := mkFunctionType {
  ft_return : LType;
  ft_params : list LType;
}.

(** The signature part of [LLVMChunkBuilder::Build]:
    [num_parameters = info()->num_parameters() + 3], a vector of that many
    [nullptr]s, then [params[i] = Int64] for every [i]. *)
Definition build_function_type (info_num_parameters : Z) : FunctionType :=
  let num_parameters := info_num_parameters + 3 in
  let n := Z.to_nat num_parameters in
  let params0 := replicate n TNull in
  let params := foldl (fun ps i => <[i := TInt64]> ps) params0 (seq 0 n) in
  mkFunctionType TInt64 params.

(** The argument walk of [LLVMChunkBuilder::DoParameter]:
    [while (--index + num_parameters > 0) ++it;] starting from
    [it = arg_begin()] (position 0).  The loop tests at most
    [index + num_parameters] times, which is the fuel given below. *)
Fixpoint param_walk (fuel : nat) (index num_parameters : Z) (it : nat)
    : nat :=
  match fuel with
  | O => it
  | S fuel' =>
      let index' := index - 1 in
      if Z.gtb (index' + num_parameters) 0
      then param_walk fuel' index' num_parameters (S it)
      else it
  end.

(** The position of the argument bound to parameter [instr_index]. *)
Definition parameter_position (info_num_parameters instr_index : Z) : nat :=
  let num_parameters := info_num_parameters + 3 in
  let index := - instr_index in
  param_walk (Z.to_nat (index + num_parameters)) index num_parameters 0%nat.

(* ================================================================== *)
(** ** The Hydrogen graph (read-only input of the builder) *)

(** The constant's handle: a Smi or some other heap object. *)
Inductive ConstHandle := HSmi (z : Z) | HOtherObject.

(** The opcodes with a handler in llvm-chunk.cc.  Handlers whose body is
    only [UNIMPLEMENTED()] are [OStub]. Operands are value ids, successors
    block ids. *)
Inductive Opcode :=
  | OAdd (l r : nat)
  | OSub (l r : nat)
  | OMul (l r : nat)
  | OChange (from to : Representation) (v : nat)
  | OConstant (int32_value : Z) (handle : ConstHandle)
  | OParameter (index : Z)
  | OReturn (v : nat) (parameter_count_is_constant : bool)
  | OCompareNumericAndBranch (tok : Token) (l r : nat) (s0 s1 : nat)
  | OBlockEntry (blk : nat)
  | OContext (has_no_uses : bool)
  | OArgumentsObject
  | OSimulate (replay : list (nat * nat))  (* (slot, value) pairs *)
  | OStackCheck
  | OGoto (succ : nat)
  | OStub (name : string).

Record HInstruction := mkInstr {
  instr_id : nat;
  opcode : Opcode;
  representation : Representation;
  emit_at_uses : bool;                   (* HValue::EmitAtUses() *)
  can_replace_with_dummy_uses : bool;
  operands : list nat;                   (* OperandAt(i) *)
  is_control : bool;                     (* IsControlInstruction() *)
  known_successor : option nat;          (* KnownSuccessorBlock *)
  can_overflow : bool;                   (* CheckFlag(kCanOverflow) *)
  is_uint32 : bool;                      (* CheckFlag(kUint32) *)
  type_is_smi : bool;                    (* type().IsSmi() *)
}.

Record HPhi := mkPhi {
  phi_id : nat;
  merged_index : option nat;             (* HasMergedIndex / merged_index *)
}.

Record HBasicBlock := mkBlock {
  block_id : nat;
  is_start_block : bool;
  predecessors : list nat;
  phis : list HPhi;
  deleted_phis : list nat;
  end_first_successor : option nat;      (* end()->FirstSuccessor() *)
  end_second_successor : option nat;     (* end()->SecondSuccessor() *)
  block_instrs : list nat;               (* first(), next(), ... *)
}.

Record CompilationInfo := mkInfo {
  num_parameters : Z;
  is_stub : bool;
  saves_caller_doubles : bool;
}.

Record HGraph := mkGraph {
  info : CompilationInfo;
  smi_values_are_32_bits : bool;
  graph_blocks : list HBasicBlock;       (* graph()->blocks(), in order *)
  graph_instrs : list HInstruction;
  start_environment : nat;               (* an environment of the store *)
  constant_undefined : nat;              (* GetConstantUndefined() *)
}.

(* ================================================================== *)
(** ** The builder state *)

(** [LChunkBuilderBase::Status]. *)
Inductive Status := UNUSED | BUILDING | DONE | ABORTED.

Global Instance Status_eq_dec : EqDecision Status.
Proof. solve_decision. Defined.

(** The mutable state: the builder's fields, the per-value and per-block
    memo fields of the graph, and the store of environments, addressed by
    location so that sharing and copying are visible. *)
Record Builder := mkBuilder {
  status : Status;
  current_instruction : option nat;
  current_block : option nat;
  next_block : option nat;
  argument_count : Z;
  llvm_values : gmap nat LValue;         (* HValue::llvm_value() *)
  llvm_blocks : gmap nat nat;            (* HBasicBlock::llvm_basic_block() *)
  next_llvm_block : nat;
  block_envs : gmap nat nat;             (* HBasicBlock::last_environment() *)
  block_argcs : gmap nat Z;              (* HBasicBlock::argument_count() *)
  envs : gmap nat (list nat);            (* environment store *)
  next_env : nat;
  code : list LInstr;                    (* what the IR builder inserted *)
}.

(** The outcome of running builder code: a result and the new state, or a
    fatal stop of the process ([CHECK], [DCHECK], [UNREACHABLE], a null
    dereference). *)
Inductive Result (A : Type) :=
  | Ok (a : A) (s : Builder)
  | Fatal (msg : string).
Arguments Ok {A} a s.
Arguments Fatal {A} msg.

Definition M (A : Type) : Type := Builder -> Result A.

Global Instance M_ret : MRet M := fun A a s => Ok a s.
Global Instance M_bind : MBind M := fun A B f m s =>
  match m s with
  | Ok a s' => f a s'
  | Fatal e => Fatal e
  end.

(** [p != NULL] and [p == q] on optional ids. *)
Definition is_Some_bool {A} (o : option A) : bool :=
  match o with Some _ => true | None => false end.
Definition option_eqb_nat (a b : option nat) : bool :=
  match a, b with
  | Some x, Some y => Nat.eqb x y
  | None, None => true
  | _, _ => false
  end.

Definition get : M Builder := fun s => Ok s s.
Definition modify (f : Builder -> Builder) : M unit := fun s => Ok tt (f s).
Definition fatal {A} (msg : string) : M A := fun _ => Fatal msg.

(** [CHECK] and [DCHECK] (debug build). *)
Definition check (b : bool) (msg : string) : M unit :=
  if b then mret tt else fatal msg.

(** Field updates. *)
Definition set_status (x : Status) (s : Builder) : Builder :=
  mkBuilder x (current_instruction s) (current_block s) (next_block s)
    (argument_count s) (llvm_values s) (llvm_blocks s) (next_llvm_block s)
    (block_envs s) (block_argcs s) (envs s) (next_env s) (code s).
Definition set_current_instruction (x : option nat) (s : Builder) : Builder :=
  mkBuilder (status s) x (current_block s) (next_block s)
    (argument_count s) (llvm_values s) (llvm_blocks s) (next_llvm_block s)
    (block_envs s) (block_argcs s) (envs s) (next_env s) (code s).
Definition set_current_block (x : option nat) (s : Builder) : Builder :=
  mkBuilder (status s) (current_instruction s) x (next_block s)
    (argument_count s) (llvm_values s) (llvm_blocks s) (next_llvm_block s)
    (block_envs s) (block_argcs s) (envs s) (next_env s) (code s).
Definition set_next_block (x : option nat) (s : Builder) : Builder :=
  mkBuilder (status s) (current_instruction s) (current_block s) x
    (argument_count s) (llvm_values s) (llvm_blocks s) (next_llvm_block s)
    (block_envs s) (block_argcs s) (envs s) (next_env s) (code s).
Definition set_argument_count (x : Z) (s : Builder) : Builder :=
  mkBuilder (status s) (current_instruction s) (current_block s)
    (next_block s) x (llvm_values s) (llvm_blocks s) (next_llvm_block s)
    (block_envs s) (block_argcs s) (envs s) (next_env s) (code s).
Definition set_llvm_values (x : gmap nat LValue) (s : Builder) : Builder :=
  mkBuilder (status s) (current_instruction s) (current_block s)
    (next_block s) (argument_count s) x (llvm_blocks s) (next_llvm_block s)
    (block_envs s) (block_argcs s) (envs s) (next_env s) (code s).
Definition set_llvm_blocks (x : gmap nat nat) (n : nat) (s : Builder)
    : Builder :=
  mkBuilder (status s) (current_instruction s) (current_block s)
    (next_block s) (argument_count s) (llvm_values s) x n
    (block_envs s) (block_argcs s) (envs s) (next_env s) (code s).
Definition set_block_envs (x : gmap nat nat) (s : Builder) : Builder :=
  mkBuilder (status s) (current_instruction s) (current_block s)
    (next_block s) (argument_count s) (llvm_values s) (llvm_blocks s)
    (next_llvm_block s) x (block_argcs s) (envs s) (next_env s) (code s).
Definition set_block_argcs (x : gmap nat Z) (s : Builder) : Builder :=
  mkBuilder (status s) (current_instruction s) (current_block s)
    (next_block s) (argument_count s) (llvm_values s) (llvm_blocks s)
    (next_llvm_block s) (block_envs s) x (envs s) (next_env s) (code s).
Definition set_envs (x : gmap nat (list nat)) (n : nat) (s : Builder)
    : Builder :=
  mkBuilder (status s) (current_instruction s) (current_block s)
    (next_block s) (argument_count s) (llvm_values s) (llvm_blocks s)
    (next_llvm_block s) (block_envs s) (block_argcs s) x n (code s).
Definition set_code (x : list LInstr) (s : Builder) : Builder :=
  mkBuilder (status s) (current_instruction s) (current_block s)
    (next_block s) (argument_count s) (llvm_values s) (llvm_blocks s)
    (next_llvm_block s) (block_envs s) (block_argcs s) (envs s) (next_env s)
    x.

(** Modelled from the spec: the [UNIMPLEMENTED()] macro used by the
    handlers is not defined in the sources at hand. The spec describes an
    unimplemented case as an abort of the compilation unit: the builder's
    status becomes [ABORTED] and the handler returns normally. *)
Definition UNIMPLEMENTED : M unit := modify (set_status ABORTED).

(* ================================================================== *)
(** ** Builder primitives *)

Section Builder.

Variable g : HGraph.

Definition find_instr (id : nat) : option HInstruction :=
  find (fun i => Nat.eqb (instr_id i) id) (graph_instrs g).

Definition find_block (id : nat) : option HBasicBlock :=
  find (fun b => Nat.eqb (block_id b) id) (graph_blocks g).

(** [HValue::IsControlInstruction()] of an operand (phis are not). *)
Definition operand_is_control (id : nat) : bool :=
  match find_instr id with Some i => is_control i | None => false end.

Definition lookup_instr (id : nat) : M HInstruction :=
  match find_instr id with
  | Some i => mret i
  | None => fatal "null HInstruction"
  end.

Definition lookup_block (id : nat) : M HBasicBlock :=
  match find_block id with
  | Some b => mret b
  | None => fatal "null HBasicBlock"
  end.

(** [HValue::llvm_value()] and [set_llvm_value()] ([None] is [nullptr]). *)
Definition get_llvm_value (id : nat) : M (option LValue) :=
  s ← get; mret (llvm_values s !! id).

Definition set_llvm_value (id : nat) (v : option LValue) : M unit :=
  modify (fun s => set_llvm_values
    (match v with
     | Some x => <[id := x]> (llvm_values s)
     | None => delete id (llvm_values s)
     end) s).

(** Appending to the function through [llvm_ir_builder_]. *)
Definition emit (i : LInstr) : M unit :=
  modify (fun s => set_code (code s ++ [i]) s).

(** [LLVMChunkBuilder::Use(HBasicBlock* block)]: create the LLVM block on first
    use, then return the memoized one. *)
Definition use_block (blk : nat) : M nat :=
  s ← get;
  match llvm_blocks s !! blk with
  | Some lb => mret lb
  | None =>
      let lb := next_llvm_block s in
      modify (set_llvm_blocks (<[blk := lb]> (llvm_blocks s)) (S lb));;
      mret lb
  end.

(** Environments: [HEnvironment::values_], [SetValueAt], [Copy]. *)
Definition env_values (loc : nat) : M (list nat) :=
  s ← get;
  match envs s !! loc with
  | Some vs => mret vs
  | None => fatal "null HEnvironment"
  end.

Definition env_set_value_at (loc index value : nat) : M unit :=
  vs ← env_values loc;
  check (Nat.ltb index (length vs)) "DCHECK(index < length())";;
  modify (fun s => set_envs (<[loc := <[index := value]> vs]> (envs s))
                            (next_env s) s).

Definition env_copy (loc : nat) : M nat :=
  vs ← env_values loc;
  s ← get;
  let n := next_env s in
  modify (set_envs (<[n := vs]> (envs s)) (S n));;
  mret n.

(** [HBasicBlock::UpdateEnvironment] and [last_environment()]. *)
Definition update_environment (blk loc : nat) : M unit :=
  modify (fun s => set_block_envs (<[blk := loc]> (block_envs s)) s).

Definition last_environment (blk : nat) : M (option nat) :=
  s ← get; mret (block_envs s !! blk).

(** [HBasicBlock::argument_count()], initially -1. *)
Definition block_argument_count (blk : nat) : M Z :=
  s ← get; mret (default (-1) (block_argcs s !! blk)).

Definition is_aborted : M bool :=
  s ← get; mret (match status s with ABORTED => true | _ => false end).

(* ================================================================== *)
(** ** [Use(HValue* value)] and the per-opcode handlers *)

(** [LLVMChunkBuilder::Use(HValue* value)], given [VisitInstruction]. *)
Definition use_value_with (visit : nat -> M unit) (v : nat) : M LValue :=
  i ← lookup_instr v;
  o ← get_llvm_value v;
  (if emit_at_uses i && negb (is_Some_bool o) then visit v else mret tt);;
  o' ← get_llvm_value v;
  match o' with
  | Some x => mret x
  | None => fatal "DCHECK(value->llvm_value())"
  end.

Section Handlers.

(** The handlers, given [Use(HValue* value)]. *)
Variable use : nat -> M LValue.

Definition SmiToInteger32 (v : nat) : M (option LValue) :=
  if smi_values_are_32_bits g then
    x ← use v;
    let r := LLShr x (kSmiShift true) in
    emit (IEmit r);;
    mret (Some r)
  else
    UNIMPLEMENTED;;
    mret None.

Definition Integer32ToSmi (v : nat) : M LValue :=
  x ← use v;
  let r := LShl x (kSmiShift (smi_values_are_32_bits g)) in
  emit (IEmit r);;
  mret r.

Definition DoAdd (self : HInstruction) (l r : nat) : M unit :=
  let rep := representation self in
  if IsInteger32 rep || IsSmi rep then
    li ← lookup_instr l;
    ri ← lookup_instr r;
    check (Equals (representation li) rep) "DCHECK(left rep)";;
    check (Equals (representation ri) rep) "DCHECK(right rep)";;
    x ← use l;
    y ← use r;
    let a := LAdd x y in
    emit (IEmit a);;
    set_llvm_value (instr_id self) (Some a)
  else UNIMPLEMENTED.

(** [DoSub] and [DoMul] read the operands' values with [CHECK] instead of
    going through [Use]. *)
Definition DoSub (self : HInstruction) (l r : nat) : M unit :=
  let rep := representation self in
  if IsInteger32 rep || IsSmi rep then
    li ← lookup_instr l;
    ri ← lookup_instr r;
    check (Equals (representation li) rep) "DCHECK(left rep)";;
    check (Equals (representation ri) rep) "DCHECK(right rep)";;
    ol ← get_llvm_value l;
    or ← get_llvm_value r;
    match ol, or with
    | Some x, Some y =>
        let a := LSub x y in
        emit (IEmit a);;
        set_llvm_value (instr_id self) (Some a)
    | None, _ => fatal "CHECK(left->llvm_value())"
    | _, None => fatal "CHECK(right->llvm_value())"
    end
  else UNIMPLEMENTED.

Definition DoMul (self : HInstruction) (l r : nat) : M unit :=
  let rep := representation self in
  if IsInteger32 rep || IsSmi rep then
    li ← lookup_instr l;
    ri ← lookup_instr r;
    check (Equals (representation li) rep) "DCHECK(left rep)";;
    check (Equals (representation ri) rep) "DCHECK(right rep)";;
    ol ← get_llvm_value l;
    or ← get_llvm_value r;
    match ol, or with
    | Some x, Some y =>
        let a := LMul x y in
        emit (IEmit a);;
        set_llvm_value (instr_id self) (Some a)
    | None, _ => fatal "CHECK(left->llvm_value())"
    | _, None => fatal "CHECK(right->llvm_value())"
    end
  else UNIMPLEMENTED.

Definition DoChange (self : HInstruction) (from to : Representation) (v : nat)
    : M unit :=
  val ← lookup_instr v;
  if IsSmi from && IsTagged to then
    x ← use v;
    set_llvm_value (instr_id self) (Some x)
  else
    let from := if IsSmi from then RTagged else from in
    if IsTagged from then
      if IsDouble to then UNIMPLEMENTED
      else if IsSmi to then
        (* TODO(llvm): checkSmi, bailout -- no code when !type().IsSmi() *)
        x ← use v;
        set_llvm_value (instr_id self) (Some x)
      else
        check (IsInteger32 to) "DCHECK(to.IsInteger32())";;
        if type_is_smi val || IsSmi (representation val) then
          r ← SmiToInteger32 v;
          set_llvm_value (instr_id self) r
        else
          (* TODO(llvm): perform smi check, bailout if not a smi *)
          r ← SmiToInteger32 v;
          set_llvm_value (instr_id self) r
    else if IsDouble from then UNIMPLEMENTED
    else if IsInteger32 from then
      if IsTagged to then
        if negb (can_overflow self) then
          r ← Integer32ToSmi v;
          set_llvm_value (instr_id self) (Some r)
        else UNIMPLEMENTED
      else if IsSmi to then UNIMPLEMENTED
      else
        check (IsDouble to) "DCHECK(to.IsDouble())";;
        UNIMPLEMENTED
    else mret tt.

Definition DoConstant (self : HInstruction) (int32_value : Z)
    (handle : ConstHandle) : M unit :=
  let shift := kSmiShift (smi_values_are_32_bits g) in
  match representation self with
  | RSmi =>
      set_llvm_value (instr_id self) (Some (LInt64 (Z.shiftl int32_value shift)))
  | RInteger32 => set_llvm_value (instr_id self) (Some (LInt64 int32_value))
  | RDouble => UNIMPLEMENTED
  | RExternal => UNIMPLEMENTED
  | RTagged =>
      match handle with
      | HSmi z =>
          (* reinterpret_cast<intptr_t>(smi) *)
          set_llvm_value (instr_id self) (Some (LInt64 (Z.shiftl z shift)))
      | HOtherObject => UNIMPLEMENTED
      end
  | RNone | RHeapObject => fatal "UNREACHABLE()"
  end.

Definition DoParameter (self : HInstruction) (index : Z) : M unit :=
  let pos := parameter_position (num_parameters (info g)) index in
  set_llvm_value (instr_id self) (Some (LArg pos)).

Definition DoReturn (v : nat) (parameter_count_is_constant : bool) : M unit :=
  (if is_stub (info g) then UNIMPLEMENTED else mret tt);;
  (if saves_caller_doubles (info g) then UNIMPLEMENTED else mret tt);;
  check (negb (is_stub (info g))) "DCHECK(!info()->IsStub())";;
  if parameter_count_is_constant then
    x ← use v;
    emit (IRet x)
  else UNIMPLEMENTED.

Definition DoCompareNumericAndBranch (self : HInstruction) (tok : Token)
    (l r s0 s1 : nat) : M unit :=
  let rep := representation self in
  li ← lookup_instr l;
  ri ← lookup_instr r;
  check (Equals (representation li) rep) "DCHECK(left rep)";;
  check (Equals (representation ri) rep) "DCHECK(right rep)";;
  let is_unsigned :=
    IsDouble rep || is_uint32 li || is_uint32 ri in
  pred ← (match TokenToPredicate tok is_unsigned with
          | Some p => mret p
          | None => fatal "UNREACHABLE()"
          end);
  if IsSmi rep then UNIMPLEMENTED
  else if IsInteger32 rep then
    x ← use l;
    y ← use r;
    let c := LICmp pred x y in
    emit (IEmit c);;
    b0 ← use_block s0;
    b1 ← use_block s1;
    let br := LCondBr c b0 b1 in
    emit (IEmit br);;
    set_llvm_value (instr_id self) (Some br)
  else
    check (IsDouble rep) "DCHECK(r.IsDouble())";;
    UNIMPLEMENTED.

(** [HSimulate::ReplayEnvironment] on the current block's environment,
    restricted to the binding of assigned slots. *)
Fixpoint replay_environment (loc : nat) (replay : list (nat * nat))
    : M unit :=
  match replay with
  | [] => mret tt
  | (slot, value) :: rest =>
      env_set_value_at loc slot value;; replay_environment loc rest
  end.

Definition DoSimulate (replay : list (nat * nat)) : M unit :=
  s ← get;
  match current_block s with
  | None => fatal "null current_block_"
  | Some blk =>
      o ← last_environment blk;
      match o with
      | None => fatal "DCHECK(env != NULL)"
      | Some loc => replay_environment loc (rev replay)
      end
  end.

(** The [for] loop over operands 1.. of the dummy-uses branch. *)
Fixpoint dummy_uses_loop (ops : list nat) : M unit :=
  match ops with
  | [] => mret tt
  | o :: rest =>
      (if operand_is_control o then mret tt else UNIMPLEMENTED);;
      dummy_uses_loop rest
  end.

(** [HInstruction::CompileToLLVM]: dispatch to [LLVMChunkBuilder::Do*]. *)
Definition CompileToLLVM (cur : HInstruction) : M unit :=
  match opcode cur with
  | OAdd l r => DoAdd cur l r
  | OSub l r => DoSub cur l r
  | OMul l r => DoMul cur l r
  | OChange from to v => DoChange cur from to v
  | OConstant z h => DoConstant cur z h
  | OParameter i => DoParameter cur i
  | OReturn v c => DoReturn v c
  | OCompareNumericAndBranch tok l r s0 s1 =>
      DoCompareNumericAndBranch cur tok l r s0 s1
  | OBlockEntry blk => _ ← use_block blk; mret tt
  | OContext has_no_uses =>
      if has_no_uses then mret tt
      else if is_stub (info g) then UNIMPLEMENTED else mret tt
  | OArgumentsObject => mret tt
  | OSimulate replay => DoSimulate replay
  | OStackCheck => mret tt
  | OGoto _ => UNIMPLEMENTED
  | OStub _ => UNIMPLEMENTED
  end.

(** The body of [LLVMChunkBuilder::VisitInstruction]. *)
Definition VisitInstruction_body (id : nat) : M unit :=
  current ← lookup_instr id;
  s ← get;
  let old_current := current_instruction s in
  modify (set_current_instruction (Some id));;
  (if can_replace_with_dummy_uses current then
     (match operands current with
      | [] => UNIMPLEMENTED
      | o0 :: _ =>
          check (negb (operand_is_control o0))
            "DCHECK(!OperandAt(0)->IsControlInstruction())";;
          UNIMPLEMENTED
      end);;
     dummy_uses_loop (drop 1 (operands current))
   else
     match (if is_control current then known_successor current else None) with
     | Some successor =>
         b ← use_block successor;
         emit (IBr b)
     | None => CompileToLLVM current
     end);;
  modify (set_current_instruction old_current).

End Handlers.

(** [VisitInstruction] and [Use(HValue* value)] call each other on
    "emit at use" operands; [fuel] bounds the depth of that recursion,
    and running out of it is the fatal stop of a cyclic chain. *)
Fixpoint VisitInstruction (fuel : nat) (id : nat) : M unit :=
  match fuel with
  | O => fatal "emit-at-use recursion does not terminate"
  | S fuel' => VisitInstruction_body (use_value_with (VisitInstruction fuel')) id
  end.

Definition Use (fuel : nat) : nat -> M LValue :=
  use_value_with (VisitInstruction fuel).

(* ================================================================== *)
(** ** [DoBasicBlock] *)

Fixpoint set_phi_values (loc : nat) (ps : list HPhi) : M unit :=
  match ps with
  | [] => mret tt
  | ph :: rest =>
      (match merged_index ph with
       | Some i => env_set_value_at loc i (phi_id ph)
       | None => mret tt
       end);;
      set_phi_values loc rest
  end.

Fixpoint set_deleted_phis (loc : nat) (ds : list nat) : M unit :=
  match ds with
  | [] => mret tt
  | d :: rest =>
      vs ← env_values loc;
      (if Nat.ltb d (length vs)
       then env_set_value_at loc d (constant_undefined g)
       else mret tt);;
      set_deleted_phis loc rest
  end.

(** The environment and argument-count part of [DoBasicBlock]. *)
Definition propagate_environment (block : HBasicBlock) : M unit :=
  let id := block_id block in
  if is_start_block block then
    update_environment id (start_environment g);;
    modify (set_argument_count 0)
  else
    match predecessors block with
    | [p] =>
        check (Nat.eqb (length (phis block)) 0) "DCHECK(phis()->length() == 0)";;
        pred ← lookup_block p;
        o ← last_environment p;
        le ← (match o with
              | Some le => mret le
              | None => fatal "DCHECK(last_environment != NULL)"
              end);
        le' ← (match end_second_successor pred with
               | None =>
                   check (option_eqb_nat (end_first_successor pred) (Some id))
                     "DCHECK(FirstSuccessor() == block)";;
                   mret le
               | Some s2 =>
                   match end_first_successor pred with
                   | None => fatal "null FirstSuccessor()"
                   | Some s1 =>
                       if Nat.ltb id s1 || Nat.ltb id s2
                       then env_copy le else mret le
                   end
               end);
        update_environment id le';;
        ac ← block_argument_count p;
        check (Z.leb 0 ac) "DCHECK(pred->argument_count() >= 0)";;
        modify (set_argument_count ac)
    | p :: _ :: _ =>
        o ← last_environment p;
        le ← (match o with
              | Some le => mret le
              | None => fatal "null last_environment()"
              end);
        set_phi_values le (phis block);;
        set_deleted_phis le (deleted_phis block);;
        update_environment id le;;
        ac ← block_argument_count p;
        modify (set_argument_count ac)
    | [] => fatal "predecessors()->at(0)"
    end.

(** [while (current != NULL && !is_aborted())]: constants and other
    "emit at use" values are skipped. *)
Fixpoint instruction_loop (fuel : nat) (l : list nat) : M unit :=
  match l with
  | [] => mret tt
  | id :: rest =>
      ab ← is_aborted;
      if (ab : bool) then mret tt
      else
        current ← lookup_instr id;
        (if emit_at_uses current then mret tt else VisitInstruction fuel id);;
        instruction_loop fuel rest
  end.

(** [DoBasicBlock] before the environment: the builder moves to the
    block's LLVM block. *)
Definition block_prologue (block : HBasicBlock) (next : option nat)
    : M unit :=
  s ← get;
  check (match status s with BUILDING => true | _ => false end) "DCHECK(is_building())";;
  _ ← use_block (block_id block);
  modify (set_current_block (Some (block_id block)));;
  modify (set_next_block next).

(** [DoBasicBlock] after the instructions. *)
Definition block_epilogue (block : HBasicBlock) : M unit :=
  modify (fun s => set_block_argcs
            (<[block_id block := argument_count s]> (block_argcs s)) s);;
  modify (set_next_block None);;
  modify (set_current_block None).

Definition DoBasicBlock (fuel : nat) (block : HBasicBlock)
    (next : option nat) : M unit :=
  block_prologue block next;;
  propagate_environment block;;
  instruction_loop fuel (block_instrs block);;
  block_epilogue block.

(* ================================================================== *)
(** ** [Build] and [NewChunk] *)

Record LLVMChunk := mkChunk {
  chunk_function_type : FunctionType;
  chunk_code : list LInstr;
}.

(** The block loop of [Build]: [next] is the following block, if any;
    [if (is_aborted()) return NULL;] after every block. *)
Fixpoint build_blocks (fuel : nat) (bs : list HBasicBlock) : M bool :=
  match bs with
  | [] => mret true
  | b :: rest =>
      DoBasicBlock fuel b (option_map block_id (head rest));;
      ab ← is_aborted;
      if (ab : bool) then mret false else build_blocks fuel rest
  end.

(** [LLVMChunkBuilder::Build]; [None] is [NULL].  Registering the module
    with [LLVMGranularity] is not modelled. *)
Definition Build (fuel : nat) : M (option LLVMChunk) :=
  modify (set_status BUILDING);;
  let function_type := build_function_type (num_parameters (info g)) in
  completed ← build_blocks fuel (graph_blocks g);
  if (completed : bool) then
    modify (set_status DONE);;
    s ← get;
    mret (Some (mkChunk function_type (code s)))
  else mret None.

(** [LLVMChunk::NewChunk]. *)
Definition NewChunk (fuel : nat) : M (option LLVMChunk) :=
  chunk ← Build fuel;
  match chunk with
  | None => mret None
  | Some c => mret (Some c)
  end.

End Builder.

(** A fresh builder over an environment store. *)
Definition initial_builder (store : gmap nat (list nat)) (next : nat)
    : Builder :=
  mkBuilder UNUSED None None None 0 ∅ ∅ 0 ∅ ∅ store next [].

(* ================================================================== *)
(** ** What the environment loops compute *)

(** The slots written by the phi loop of a join, in order. *)
Definition apply_phis (vs : list nat) (ps : list HPhi) : list nat :=
  foldl (fun vs ph =>
           match merged_index ph with
           | Some i => <[i := phi_id ph]> vs
           | None => vs
           end) vs ps.

(** The slots written by the deleted-phi loop, in order. *)
Definition apply_deleted (undefined : nat) (vs : list nat) (ds : list nat)
    : list nat :=
  foldl (fun vs d => if Nat.ltb d (length vs) then <[d := undefined]> vs else vs)
    vs ds.

(** The copy condition of the single-predecessor case: two successors, at
    least one of them numbered above the block. *)
Definition copies_environment (pred block : HBasicBlock) : bool :=
  match end_first_successor pred, end_second_successor pred with
  | Some s1, Some s2 => Nat.ltb (block_id block) s1 || Nat.ltb (block_id block) s2
  | _, _ => false
  end.

(* ================================================================== *)
(** ** Concrete inputs *)

Definition mk_instr (id : nat) (op : Opcode) (r : Representation)
    (eau : bool) : HInstruction :=
  mkInstr id op r eau false [] false None false false false.

(** [function f(a, b) { return a + b; }] with both parameters proven
    32-bit integers: parameters are tagged, untagged, added, retagged. *)
Definition g_add : HGraph :=
  mkGraph (mkInfo 2 false false) true
    [mkBlock 0 true [] [] [] None None [0; 1; 2; 3; 4; 5; 6; 7; 8; 9]%nat]
    [mk_instr 0 (OBlockEntry 0) RNone false;
     mk_instr 1 (OContext true) RTagged false;
     mk_instr 2 (OParameter 1) RTagged false;
     mk_instr 3 (OParameter 2) RTagged false;
     mk_instr 4 (OChange RTagged RInteger32 2) RInteger32 false;
     mk_instr 5 (OChange RTagged RInteger32 3) RInteger32 false;
     mk_instr 6 (OAdd 4 5) RInteger32 false;
     mk_instr 7 (OChange RInteger32 RTagged 6) RTagged false;
     mk_instr 8 (OConstant 1 (HSmi 1)) RTagged true;
     mk_instr 9 (OReturn 7 true) RNone false]%nat
    0%nat 100%nat.

(** The same function with a [typeof] in the first block. *)
Definition g_typeof : HGraph :=
  mkGraph (mkInfo 1 false false) true
    [mkBlock 0 true [] [] [] (Some 1%nat) None [0; 1; 2]%nat;
     mkBlock 1 false [0%nat] [] [] None None [3; 4]%nat]
    [mk_instr 0 (OBlockEntry 0) RNone false;
     mk_instr 1 (OParameter 1) RTagged false;
     mk_instr 2 (OStub "Typeof") RTagged false;
     mk_instr 3 (OBlockEntry 1) RNone false;
     mk_instr 4 (OReturn 1 true) RNone false]%nat
    0%nat 100%nat.

(** [p - 1], [p + 1], [p * 1] on an integer parameter [p]; the constant
    1 is emitted at its uses. *)
Definition g_arith : HGraph :=
  mkGraph (mkInfo 1 false false) true []
    [mk_instr 1 (OParameter 1) RInteger32 false;
     mk_instr 2 (OConstant 1 (HSmi 1)) RInteger32 true;
     mk_instr 3 (OSub 1 2) RInteger32 false;
     mk_instr 4 (OAdd 1 2) RInteger32 false;
     mk_instr 5 (OMul 1 2) RInteger32 false]%nat
    0%nat 100%nat.

(** The integer constant -1, tagged and untagged again. *)
Definition g_roundtrip : HGraph :=
  mkGraph (mkInfo 0 false false) true []
    [mk_instr 1 (OConstant (-1) (HSmi (-1))) RInteger32 true;
     mk_instr 2 (OChange RInteger32 RTagged 1) RTagged false;
     mk_instr 3 (OChange RTagged RInteger32 2) RInteger32 false]%nat
    0%nat 100%nat.

(** A branch: block 0 ends in a two-way branch to blocks 1 and 2, each
    of which has block 0 as its only predecessor. *)
Definition b_branch0 : HBasicBlock :=
  mkBlock 0 true [] [] [] (Some 1%nat) (Some 2%nat) [].
Definition b_branch1 : HBasicBlock :=
  mkBlock 1 false [0%nat] [] [] None None [].
Definition b_branch2 : HBasicBlock :=
  mkBlock 2 false [0%nat] [] [] None None [].
Definition g_branch : HGraph :=
  mkGraph (mkInfo 0 false false) true [b_branch0; b_branch1; b_branch2] []
    0%nat 100%nat.

(** The state after block 0: its environment is at location 0. *)
Definition s_branch : Builder :=
  set_block_argcs {[0%nat := 0]}
    (set_block_envs {[0%nat := 0%nat]}
       (set_status BUILDING (initial_builder {[0%nat := [5; 6]%nat]} 1))).

(** The predecessor has two successors, both numbered above [block]. *)
Definition both_successors_forward (pred block : HBasicBlock) : bool :=
  match end_first_successor pred, end_second_successor pred with
  | Some s1, Some s2 => Nat.ltb (block_id block) s1 && Nat.ltb (block_id block) s2
  | _, _ => false
  end.

(** A state in the middle of a build. *)
Definition building (store : gmap nat (list nat)) (next : nat) : Builder :=
  set_status BUILDING (initial_builder store next).

(** A goto to block 1, whose successor is known, and an instruction that
    can be replaced with dummy uses of its operands. *)
Definition g_control : HGraph :=
  mkGraph (mkInfo 0 false false) true []
    [mkInstr 0 (OGoto 1) RNone false false [] true (Some 1%nat) false false false;
     mkInstr 1 OStackCheck RNone false true [2; 0]%nat false None false false false;
     mkInstr 2 OStackCheck RNone false false [] false None false false false]%nat
    0%nat 100%nat.

(** [p < 1] branching to blocks 1 and 2, on an integer parameter [p]; the
    constant 1 is emitted at its uses. *)
Definition g_compare : HGraph :=
  mkGraph (mkInfo 1 false false) true []
    [mk_instr 1 (OParameter 1) RInteger32 false;
     mk_instr 2 (OConstant 1 (HSmi 1)) RInteger32 true;
     mk_instr 3 (OCompareNumericAndBranch LT 1 2 1 2) RInteger32 false]%nat
    0%nat 100%nat.

(** A join: block 3 with predecessors 1 and 2, a phi for slot 0, a phi
    with no merged index, and deleted phis for slots 1 and 7 (7 is out of
    range). *)
Definition b_join : HBasicBlock :=
  mkBlock 3 false [1%nat; 2%nat] [mkPhi 20 (Some 0%nat); mkPhi 21 None]
    [1%nat; 7%nat] None None [].

(** The state after block 1: its environment is at location 0. *)
Definition s_join : Builder :=
  set_block_argcs {[1%nat := 2]}
    (set_block_envs {[1%nat := 0%nat]} (building {[0%nat := [5; 6; 7]%nat]} 1)).

(** Once the builder is [ABORTED], a computation that completes leaves it
    [ABORTED]. *)
Definition keeps_aborted {A} (m : M A) : Prop :=
  forall s a s', m s = Ok a s' -> status s = ABORTED -> status s' = ABORTED.

(** A computation that completes relates its start and end states by [R]. *)
Definition preserves (R : Builder -> Builder -> Prop) {A} (m : M A) : Prop :=
  forall s a s', m s = Ok a s' -> R s s'.

(** What an instruction handler may change: it appends code, adds LLVM
    blocks, may abort; it leaves the block bookkeeping of [DoBasicBlock]
    (argument count, block environments and argument counts, current and
    next block) as it is. *)
Definition handler_step (s s' : Builder) : Prop :=
  prefix (code s) (code s') /\
  llvm_blocks s ⊆ llvm_blocks s' /\
  (next_llvm_block s <= next_llvm_block s')%nat /\
  argument_count s' = argument_count s /\
  block_envs s' = block_envs s /\
  block_argcs s' = block_argcs s /\
  current_block s' = current_block s /\
  next_block s' = next_block s /\
  (status s' = status s \/ status s' = ABORTED).

(** What a block step keeps: code is only appended, LLVM blocks are only
    added, and a block with a recorded argument count keeps one. *)
Definition grows (s s' : Builder) : Prop :=
  prefix (code s) (code s') /\
  llvm_blocks s ⊆ llvm_blocks s' /\
  (forall k, is_Some (block_argcs s !! k) -> is_Some (block_argcs s' !! k)).

(** The LLVM blocks created so far are numbered below the counter, and no
    two Hydrogen blocks share one. *)
Definition llvm_blocks_fresh (s : Builder) : Prop :=
  (forall k lb, llvm_blocks s !! k = Some lb -> (lb < next_llvm_block s)%nat) /\
  (forall k1 k2 lb, llvm_blocks s !! k1 = Some lb -> llvm_blocks s !! k2 = Some lb ->
     k1 = k2).

(* ================================================================== *)
(** ** Monad lemmas *)

Lemma bind_Ok {A B} (m : M A) (f : A -> M B) (s : Builder) (b : B)
    (s' : Builder) :
  (m ≫= f) s = Ok b s' -> exists a s1, m s = Ok a s1 /\ f a s1 = Ok b s'.
Proof.
  unfold mbind, M_bind. destruct (m s) as [a s1|e]; [eauto | discriminate].
Qed.

Lemma bind_Ok_intro {A B} (m : M A) (f : A -> M B) (s : Builder) (a : A)
    (s1 : Builder) :
  m s = Ok a s1 -> (m ≫= f) s = f a s1.
Proof. unfold mbind, M_bind. intros ->. reflexivity. Qed.

Lemma lookup_instr_Ok (g : HGraph) (id : nat) (s : Builder)
    (i : HInstruction) (s' : Builder) :
  lookup_instr g id s = Ok i s' -> find_instr g id = Some i /\ s' = s.
Proof.
  unfold lookup_instr. destruct (find_instr g id); simpl.
  - intros H. injection H. intros <- <-. auto.
  - discriminate.
Qed.

Ltac inv_bind H :=
  let a := fresh "a" in let s := fresh "s" in
  let H1 := fresh "H" in let H2 := fresh "H" in
  apply bind_Ok in H; destruct H as (a & s & H1 & H2).

(* ================================================================== *)
(** ** Parameters and the signature *)

Lemma param_walk_count (N : Z) (fuel : nat) :
  forall (index : Z) (it : nat),
  Z.of_nat fuel = index + N -> 1 <= index + N ->
  param_walk fuel index N it = (it + Z.to_nat (index + N - 1))%nat.
Proof.
  induction fuel as [|fuel IH]; intros index it Hf Hpos; simpl.
  - lia.
  - destruct (Z.gtb_spec (index - 1 + N) 0) as [Hgt|Hle].
    + rewrite IH by lia. lia.
    + lia.
Qed.

Lemma parameter_position_spec (n i : Z) :
  0 <= i < n + 3 ->
  parameter_position n i = Z.to_nat (n + 3 - 1 - i).
Proof.
  intros Hi. unfold parameter_position.
  rewrite param_walk_count by lia. lia.
Qed.

Lemma foldl_insert_int64 (l : list nat) :
  forall (ps : list LType) (i : nat),
  (i < length ps)%nat -> (ps !! i = Some TInt64 \/ i ∈ l) ->
  foldl (fun ps i => <[i := TInt64]> ps) ps l !! i = Some TInt64.
Proof.
  induction l as [|j l IH]; intros ps i Hlt Hi; simpl.
  - destruct Hi as [Hi|Hi]; [exact Hi | inversion Hi].
  - apply IH.
    + rewrite length_insert. exact Hlt.
    + destruct (decide (i = j)) as [->|Hne].
      * left. apply list_lookup_insert_eq. exact Hlt.
      * destruct Hi as [Hi|Hi].
        -- left. rewrite list_lookup_insert_ne by congruence. exact Hi.
        -- right. apply elem_of_cons in Hi. destruct Hi; [congruence | auto].
Qed.

Lemma foldl_insert_length (l : list nat) :
  forall (ps : list LType),
  length (foldl (fun ps i => <[i := TInt64]> ps) ps l) = length ps.
Proof.
  induction l as [|j l IH]; intros ps; simpl; [done|].
  rewrite IH. apply length_insert.
Qed.

Lemma build_function_type_length (n : Z) :
  0 <= n -> length (ft_params (build_function_type n)) = Z.to_nat (n + 3).
Proof.
  intros Hn. unfold build_function_type. simpl.
  rewrite foldl_insert_length, length_replicate. reflexivity.
Qed.

Lemma build_function_type_int64 (n : Z) :
  Forall (eq TInt64) (ft_params (build_function_type n)).
Proof.
  apply Forall_lookup_2. intros i x Hx.
  unfold build_function_type in Hx. simpl in Hx.
  pose proof (lookup_lt_Some _ _ _ Hx) as Hlt.
  rewrite foldl_insert_length, length_replicate in Hlt.
  rewrite foldl_insert_int64 in Hx.
  - congruence.
  - rewrite length_replicate. exact Hlt.
  - right. apply elem_of_seq. lia.
Qed.

Lemma Build_function_type (g : HGraph) (fuel : nat) (s s' : Builder)
    (c : LLVMChunk) :
  Build g fuel s = Ok (Some c) s' ->
  chunk_function_type c = build_function_type (num_parameters (info g)).
Proof.
  unfold Build. intros H.
  inv_bind H. cbv zeta in H1. inv_bind H1.
  destruct a0.
  - inv_bind H2. inv_bind H3. unfold mret, M_ret in H4.
    injection H4 as <- _. reflexivity.
  - unfold mret, M_ret in H2. discriminate.
Qed.

(** Claim-independent facts about [SmiToInteger32 (Integer32ToSmi x)]:
    the low 32 bits of [x] come back, zero-extended. *)
Lemma smi_roundtrip_low_bits (args : nat -> Z) (x : Z) :
  eval_i64 args (LLShr (LShl (LInt64 x) (kSmiShift true)) (kSmiShift true))
  = Some (x mod 2 ^ 32).
Proof.
  change (kSmiShift true) with 32. simpl. f_equal. unfold two64.
  rewrite Z.shiftl_mul_pow2 by lia. rewrite Z.shiftr_div_pow2 by lia.
  change (2 ^ 64) with (2 ^ 32 * 2 ^ 32).
  rewrite Z.mul_mod_distr_r by lia.
  rewrite Z.div_mul by lia.
  apply Z.mod_mod_divide. exists (2 ^ 32). reflexivity.
Qed.

Lemma smi_roundtrip_nonnegative (args : nat -> Z) (x : Z) :
  0 <= x < 2 ^ 31 ->
  eval_i64 args (LLShr (LShl (LInt64 x) (kSmiShift true)) (kSmiShift true))
  = Some (to_i64 x).
Proof.
  intros Hx. rewrite smi_roundtrip_low_bits. unfold to_i64, two64.
  rewrite !Z.mod_small by lia. reflexivity.
Qed.

(* ================================================================== *)
(** ** Predicate classification *)

Definition relational_ops : list Token := [EQ; NE; LT; GT; LTE; GTE].

(** C5 (counterexample): the twelve (operator, signedness) pairs do not
    give twelve distinct predicates: [EQ] gives [ICMP_EQ] whatever the
    signedness flag. *)
Lemma TokenToPredicate_not_twelve_distinct :
  ~ (forall (o1 o2 : Token) (u1 u2 : bool),
       o1 ∈ relational_ops -> o2 ∈ relational_ops ->
       TokenToPredicate o1 u1 = TokenToPredicate o2 u2 ->
       o1 = o2 /\ u1 = u2).
Proof.
  intros H.
  destruct (H EQ EQ false true) as [_ Hu];
    [left | left | reflexivity | discriminate].
Qed.

Ltac relational_cases H :=
  repeat (apply elem_of_cons in H as [->|H]); [..|apply elem_of_nil in H; done].

(** C5 (amended): [TokenToPredicate] yields a non-error predicate for each
    of the six relational operators and either signedness; two such pairs
    yield the same predicate exactly when the operators agree and either
    the flags agree or the operator is [EQ] or [NE] (ten distinct
    predicates in all); [IN] and [INSTANCEOF] are [UNREACHABLE()]. *)
Theorem TokenToPredicate_classification :
  (forall (o : Token) (u : bool), o ∈ relational_ops ->
     exists p, TokenToPredicate o u = Some p /\ p <> BAD_FCMP_PREDICATE) /\
  (forall (o1 o2 : Token) (u1 u2 : bool),
     o1 ∈ relational_ops -> o2 ∈ relational_ops ->
     (TokenToPredicate o1 u1 = TokenToPredicate o2 u2 <->
      o1 = o2 /\ (u1 = u2 \/ o1 = EQ \/ o1 = NE))) /\
  (forall u : bool,
     TokenToPredicate IN u = None /\ TokenToPredicate INSTANCEOF u = None).
Proof.
  split; [|split].
  - intros o u Ho. relational_cases Ho;
      destruct u; eexists; (split; [reflexivity | discriminate]).
  - intros o1 o2 u1 u2 H1 H2.
    relational_cases H1; relational_cases H2; destruct u1, u2; simpl;
      split; intros Hq; try discriminate; try (intuition discriminate);
      try (split; [reflexivity | tauto]); try reflexivity.
  - intros u. split; reflexivity.
Qed.

(* ================================================================== *)
(** ** The function signature and the parameters *)

(** C8: the function built by [Build] has [num_parameters + 3] parameters
    (two hidden ones and one more fixed slot besides the declared ones),
    all of the 64-bit integer type, which is also its return type. *)
Theorem Build_signature (g : HGraph) (fuel : nat) (s s' : Builder)
    (c : LLVMChunk)
    (Hn : 0 <= num_parameters (info g))
    (HB : Build g fuel s = Ok (Some c) s') :
  ft_return (chunk_function_type c) = TInt64 /\
  length (ft_params (chunk_function_type c))
    = Z.to_nat (num_parameters (info g) + 3) /\
  Forall (eq TInt64) (ft_params (chunk_function_type c)).
Proof.
  rewrite (Build_function_type g fuel s s' c HB).
  split; [reflexivity | split].
  - apply build_function_type_length. exact Hn.
  - apply build_function_type_int64.
Qed.

Lemma Build_signature_witness :
  0 <= num_parameters (info g_add) /\
  match Build g_add 10 (initial_builder {[0%nat := []]} 1) with
  | Ok (Some c) _ =>
      ft_return (chunk_function_type c) = TInt64 /\
      length (ft_params (chunk_function_type c))
        = Z.to_nat (num_parameters (info g_add) + 3) /\
      Forall (eq TInt64) (ft_params (chunk_function_type c))
  | _ => False
  end.
Proof.
  split; [simpl; lia|].
  destruct (Build g_add 10 (initial_builder {[0%nat := []]} 1))
    as [[c|] s'|e] eqn:E.
  - exact (Build_signature g_add 10 _ s' c ltac:(simpl; lia) E).
  - vm_compute in E. discriminate.
  - vm_compute in E. discriminate.
Defined.

(** C9: for a declared parameter [0 <= i < N], [DoParameter] binds the
    instruction to argument [N + 3 - 1 - i] of the function: counted from
    the end of the [N + 3] arguments it is argument [i + 1], so parameter 0
    is the last one. *)
Theorem DoParameter_binds_from_end (g : HGraph) (self : HInstruction)
    (i : Z) (s : Builder)
    (Hi : 0 <= i < num_parameters (info g)) :
  DoParameter g self i s =
    Ok tt (set_llvm_values
             (<[instr_id self :=
                  LArg (Z.to_nat (num_parameters (info g) + 3 - 1 - i))]>
                (llvm_values s)) s) /\
  (Z.to_nat (num_parameters (info g) + 3 - 1 - i) + Z.to_nat i + 1
    = length (ft_params (build_function_type (num_parameters (info g)))))%nat.
Proof.
  split.
  - unfold DoParameter, set_llvm_value, modify.
    rewrite parameter_position_spec by lia. reflexivity.
  - rewrite build_function_type_length by lia. lia.
Qed.

Lemma DoParameter_binds_from_end_witness :
  (0 <= 1 < num_parameters (info g_add)) /\
  DoParameter g_add (mk_instr 2 (OParameter 1) RTagged false) 1
    (building ∅ 0) =
    Ok tt (set_llvm_values
             (<[2%nat := LArg (Z.to_nat (num_parameters (info g_add) + 3 - 1 - 1))]>
                (llvm_values (building ∅ 0))) (building ∅ 0)) /\
  (Z.to_nat (num_parameters (info g_add) + 3 - 1 - 1) + Z.to_nat 1 + 1
    = length (ft_params (build_function_type (num_parameters (info g_add)))))%nat.
Proof.
  split; [simpl; lia|].
  exact (DoParameter_binds_from_end g_add
           (mk_instr 2 (OParameter 1) RTagged false) 1 (building ∅ 0)
           ltac:(simpl; lia)).
Defined.

(* ================================================================== *)
(** ** The Smi round trip *)

(** C6 (code bug): tagging the 32-bit integer -1 ([Integer32ToSmi], a left
    shift by 32) and untagging it again ([SmiToInteger32], a logical right
    shift by 32) gives the i64 word 2^32 - 1, not the word of -1
    (2^64 - 1) that [DoConstant] gave the constant. *)
Theorem smi_roundtrip_negative_one :
  (llvm_values
     (match VisitInstruction g_roundtrip 5 2 (building ∅ 0) with
      | Ok _ s => s | Fatal _ => building ∅ 0 end) !! 1%nat)
    ≫= eval_i64 (fun _ => 0) = Some (to_i64 (-1)) /\
  match (VisitInstruction g_roundtrip 5 2;; VisitInstruction g_roundtrip 5 3)
          (building ∅ 0) with
  | Ok _ s' =>
      (llvm_values s' !! 3%nat) ≫= eval_i64 (fun _ => 0) = Some (2 ^ 32 - 1)
  | Fatal _ => False
  end /\
  to_i64 (-1) = two64 - 1 /\ to_i64 (-1) <> 2 ^ 32 - 1.
Proof.
  split; [vm_compute; reflexivity|].
  split; [vm_compute; reflexivity|].
  split; [reflexivity | discriminate].
Qed.

(* ================================================================== *)
(** ** [VisitInstruction] restores [current_instruction_] *)

(** C10: a [VisitInstruction] that returns (also one reached recursively
    through [Use] on an "emit at use" operand) leaves [current_instruction_]
    as it found it. *)
Theorem VisitInstruction_restores_current (g : HGraph) (fuel id : nat)
    (s s' : Builder)
    (H : VisitInstruction g fuel id s = Ok tt s') :
  current_instruction s' = current_instruction s.
Proof.
  destruct fuel as [|fuel]; simpl in H; [discriminate|].
  unfold VisitInstruction_body in H.
  apply bind_Ok in H as (cur & s1 & Hl & H).
  apply lookup_instr_Ok in Hl as [_ ->].
  apply bind_Ok in H as (s0 & s2 & Hg & H).
  unfold get in Hg. injection Hg as <- <-.
  cbv zeta in H.
  apply bind_Ok in H as ([] & s3 & _ & H).
  apply bind_Ok in H as ([] & s4 & _ & H).
  unfold modify in H. injection H as <-. reflexivity.
Qed.

Lemma VisitInstruction_restores_current_witness :
  match VisitInstruction g_arith 5 4
          (set_current_instruction (Some 7%nat)
             (set_llvm_values {[1%nat := LArg 3]} (building ∅ 0))) with
  | Ok tt s' => current_instruction s' = Some 7%nat
  | Fatal _ => False
  end.
Proof.
  destruct (VisitInstruction g_arith 5 4
          (set_current_instruction (Some 7%nat)
             (set_llvm_values {[1%nat := LArg 3]} (building ∅ 0))))
    as [[] s'|e] eqn:E.
  - exact (VisitInstruction_restores_current g_arith 5 4 _ s' E).
  - vm_compute in E. discriminate.
Defined.

(* ================================================================== *)
(** ** The representation-change matrix *)

(** C7: [DoChange] on the four representations, for any [Use]: Smi to
    tagged and tagged to Smi give the operand's value unchanged and emit
    nothing (no Smi check); tagged to integer emits only the untagging
    right shift (no Smi check), a stub when Smis are 31 bits; integer to
    tagged emits the tagging left shift when the change cannot overflow and
    is a stub otherwise; every change from or to double is a stub. A stub
    is [UNIMPLEMENTED()]: the unit is marked ABORTED and nothing else
    happens. *)
Theorem DoChange_matrix (g : HGraph) (use : nat -> M LValue)
    (self val : HInstruction) (v : nat) (s s1 : Builder) (x : LValue)
    (Hv : find_instr g v = Some val)
    (Huse : use v s = Ok x s1) :
  let id := instr_id self in
  DoChange g use self RSmi RTagged v s =
    Ok tt (set_llvm_values (<[id := x]> (llvm_values s1)) s1) /\
  DoChange g use self RTagged RSmi v s =
    Ok tt (set_llvm_values (<[id := x]> (llvm_values s1)) s1) /\
  DoChange g use self RTagged RInteger32 v s =
    (if smi_values_are_32_bits g then
       let r := LLShr x (kSmiShift true) in
       let s2 := set_code (code s1 ++ [IEmit r]) s1 in
       Ok tt (set_llvm_values (<[id := r]> (llvm_values s2)) s2)
     else
       Ok tt (set_llvm_values (delete id (llvm_values s))
                (set_status ABORTED s))) /\
  DoChange g use self RInteger32 RTagged v s =
    (if can_overflow self then Ok tt (set_status ABORTED s)
     else
       let r := LShl x (kSmiShift (smi_values_are_32_bits g)) in
       let s2 := set_code (code s1 ++ [IEmit r]) s1 in
       Ok tt (set_llvm_values (<[id := r]> (llvm_values s2)) s2)) /\
  (forall r : Representation, r ∈ [RSmi; RInteger32; RTagged; RDouble] ->
     DoChange g use self RDouble r v s = Ok tt (set_status ABORTED s) /\
     DoChange g use self r RDouble v s = Ok tt (set_status ABORTED s)).
Proof.
  cbv zeta.
  unfold DoChange, lookup_instr. rewrite Hv.
  unfold SmiToInteger32, Integer32ToSmi,
    UNIMPLEMENTED, set_llvm_value, emit, modify, check.
  unfold mbind, mret, M_bind, M_ret.
  cbn.
  split; [rewrite Huse; reflexivity|].
  split; [rewrite Huse; reflexivity|].
  split.
  { destruct (smi_values_are_32_bits g);
      destruct (type_is_smi val || IsSmi (representation val));
      try rewrite Huse; reflexivity. }
  split.
  { destruct (can_overflow self); cbn; [reflexivity|].
    rewrite Huse. reflexivity. }
  intros r Hr.
  repeat (apply elem_of_cons in Hr as [->|Hr]); [..|apply elem_of_nil in Hr; done];
    split; reflexivity.
Qed.

Lemma DoChange_matrix_witness :
  match Use g_roundtrip 5 1 (building ∅ 0) with
  | Ok x s1 =>
      find_instr g_roundtrip 1 =
        Some (mk_instr 1 (OConstant (-1) (HSmi (-1))) RInteger32 true) /\
      Use g_roundtrip 5 1 (building ∅ 0) = Ok x s1 /\
      let self := mk_instr 3 (OChange RTagged RInteger32 2) RInteger32 false in
      let use := Use g_roundtrip 5 in
      let g := g_roundtrip in
      let s := building ∅ 0 in
      let v := 1%nat in
      let id := instr_id self in
      DoChange g use self RSmi RTagged v s =
        Ok tt (set_llvm_values (<[id := x]> (llvm_values s1)) s1) /\
      DoChange g use self RTagged RSmi v s =
        Ok tt (set_llvm_values (<[id := x]> (llvm_values s1)) s1) /\
      DoChange g use self RTagged RInteger32 v s =
        (if smi_values_are_32_bits g then
           let r := LLShr x (kSmiShift true) in
           let s2 := set_code (code s1 ++ [IEmit r]) s1 in
           Ok tt (set_llvm_values (<[id := r]> (llvm_values s2)) s2)
         else
           Ok tt (set_llvm_values (delete id (llvm_values s))
                    (set_status ABORTED s))) /\
      DoChange g use self RInteger32 RTagged v s =
        (if can_overflow self then Ok tt (set_status ABORTED s)
         else
           let r := LShl x (kSmiShift (smi_values_are_32_bits g)) in
           let s2 := set_code (code s1 ++ [IEmit r]) s1 in
           Ok tt (set_llvm_values (<[id := r]> (llvm_values s2)) s2)) /\
      (forall r : Representation, r ∈ [RSmi; RInteger32; RTagged; RDouble] ->
         DoChange g use self RDouble r v s = Ok tt (set_status ABORTED s) /\
         DoChange g use self r RDouble v s = Ok tt (set_status ABORTED s))
  | Fatal _ => False
  end.
Proof.
  destruct (Use g_roundtrip 5 1 (building ∅ 0)) as [x s1|e] eqn:E.
  - split; [reflexivity|]. split; [reflexivity|].
    exact (DoChange_matrix g_roundtrip (Use g_roundtrip 5)
             (mk_instr 3 (OChange RTagged RInteger32 2) RInteger32 false)
             (mk_instr 1 (OConstant (-1) (HSmi (-1))) RInteger32 true)
             1 (building ∅ 0) s1 x eq_refl E).
  - vm_compute in E. discriminate.
Defined.

(* ================================================================== *)
(** ** Operands of the arithmetic handlers *)

(** C4 (code bug): on [p - 1] and [p * 1], whose constant operand is
    emitted at its uses and has no value yet, [DoSub] and [DoMul] stop on
    [CHECK(right->llvm_value())]; [DoAdd] on [p + 1] goes through [Use],
    which materializes the constant, and emits the addition. *)
Theorem arith_emit_at_use_operand :
  let s := set_llvm_values {[1%nat := LArg 3]} (building ∅ 0) in
  VisitInstruction g_arith 5 3 s = Fatal "CHECK(right->llvm_value())" /\
  VisitInstruction g_arith 5 5 s = Fatal "CHECK(right->llvm_value())" /\
  match VisitInstruction g_arith 5 4 s with
  | Ok _ s' => llvm_values s' !! 4%nat = Some (LAdd (LArg 3) (LInt64 1)) /\
               llvm_values s' !! 2%nat = Some (LInt64 1)
  | Fatal _ => False
  end.
Proof.
  split; [vm_compute; reflexivity|].
  split; [vm_compute; reflexivity|].
  vm_compute. split; reflexivity.
Qed.

(* ================================================================== *)
(** ** Environments at a single predecessor *)

(** C2 (counterexample): block 1 has block 0 as its only predecessor and
    block 0 branches to blocks 1 and 2. Not both successors are numbered
    above 1, yet the environment of block 1 is a copy, at a location other
    than block 0's: the copy is made when either successor is. *)
Lemma single_predecessor_copy_not_both_forward :
  both_successors_forward b_branch0 b_branch1 = false /\
  match propagate_environment g_branch b_branch1 s_branch with
  | Ok _ s' => block_envs s' !! 1%nat <> block_envs s_branch !! 0%nat
  | Fatal _ => False
  end.
Proof.
  split; [reflexivity|]. vm_compute. intros H. discriminate H.
Qed.

(* ================================================================== *)
(** ** Lemmas on the builder primitives *)

Lemma get_Ok (s a s' : Builder) : get s = Ok a s' -> a = s /\ s' = s.
Proof. unfold get. intros H. injection H. auto. Qed.

Lemma modify_Ok (f : Builder -> Builder) (s s' : Builder) (a : unit) :
  modify f s = Ok a s' -> s' = f s.
Proof. unfold modify. intros H. injection H. auto. Qed.

Lemma mret_Ok {A} (x a : A) (s s' : Builder) :
  (mret x : M A) s = Ok a s' -> a = x /\ s' = s.
Proof. unfold mret, M_ret. intros H. injection H. auto. Qed.

Lemma set_envs_id (s : Builder) : set_envs (envs s) (next_env s) s = s.
Proof. destruct s. reflexivity. Qed.

Lemma set_envs_twice (m m' : gmap nat (list nat)) (n n' : nat) (s : Builder) :
  set_envs m n (set_envs m' n' s) = set_envs m n s.
Proof. reflexivity. Qed.

Lemma env_values_Ok (loc : nat) (s s' : Builder) (vs : list nat) :
  env_values loc s = Ok vs s' -> envs s !! loc = Some vs /\ s' = s.
Proof.
  unfold env_values, mbind, M_bind, get. cbn.
  destruct (envs s !! loc); intros H; [|discriminate].
  unfold mret, M_ret in H. injection H. intros -> ->. auto.
Qed.

Lemma env_set_value_at_Ok (loc i v : nat) (s s' : Builder) (a : unit) :
  env_set_value_at loc i v s = Ok a s' ->
  exists vs, envs s !! loc = Some vs /\ (i < length vs)%nat /\
    s' = set_envs (<[loc := <[i := v]> vs]> (envs s)) (next_env s) s.
Proof.
  unfold env_set_value_at. intros H.
  apply bind_Ok in H as (vs & s1 & Hv & H).
  apply env_values_Ok in Hv as [Hv ->].
  apply bind_Ok in H as ([] & s2 & Hc & H).
  unfold check in Hc. destruct (Nat.ltb_spec i (length vs)) as [Hlt|];
    [|discriminate].
  apply mret_Ok in Hc as [_ ->]. apply modify_Ok in H as ->. eauto.
Qed.

Lemma set_phi_values_Ok (loc : nat) (ps : list HPhi) :
  forall (s s' : Builder) (vs : list nat) (a : unit),
  envs s !! loc = Some vs ->
  set_phi_values loc ps s = Ok a s' ->
  s' = set_envs (<[loc := apply_phis vs ps]> (envs s)) (next_env s) s /\
  Forall (fun ph => forall i, merged_index ph = Some i -> (i < length vs)%nat) ps.
Proof.
  induction ps as [|ph ps IH]; intros s s' vs a Hvs H; simpl in H.
  - apply mret_Ok in H as [_ ->]. split; [|constructor].
    simpl. rewrite insert_id by exact Hvs. symmetry. apply set_envs_id.
  - apply bind_Ok in H as ([] & s1 & H1 & H).
    destruct (merged_index ph) as [i|] eqn:Hm.
    + apply env_set_value_at_Ok in H1 as (vs0 & Hvs0 & Hlt & ->).
      rewrite Hvs in Hvs0. injection Hvs0 as <-.
      edestruct IH as [-> Hall]; [| exact H |].
      { simpl. apply lookup_insert_eq. }
      split.
      * simpl. rewrite insert_insert_eq. unfold apply_phis. simpl.
        rewrite Hm. reflexivity.
      * constructor.
        -- intros j Hj. congruence.
        -- rewrite length_insert in Hall. exact Hall.
    + apply mret_Ok in H1 as [_ ->].
      edestruct IH as [-> Hall]; [exact Hvs | exact H |].
      split.
      * unfold apply_phis. simpl. rewrite Hm. reflexivity.
      * constructor; [intros j Hj; congruence | exact Hall].
Qed.

Lemma set_deleted_phis_Ok (g : HGraph) (loc : nat) (ds : list nat) :
  forall (s s' : Builder) (vs : list nat) (a : unit),
  envs s !! loc = Some vs ->
  set_deleted_phis g loc ds s = Ok a s' ->
  s' = set_envs (<[loc := apply_deleted (constant_undefined g) vs ds]> (envs s))
         (next_env s) s.
Proof.
  induction ds as [|d ds IH]; intros s s' vs a Hvs H; simpl in H.
  - apply mret_Ok in H as [_ ->].
    simpl. rewrite insert_id by exact Hvs. symmetry. apply set_envs_id.
  - apply bind_Ok in H as (vs0 & s0 & Hv & H).
    apply env_values_Ok in Hv as [Hv ->].
    rewrite Hvs in Hv. injection Hv as <-.
    apply bind_Ok in H as ([] & s1 & H1 & H).
    unfold apply_deleted. simpl.
    destruct (Nat.ltb d (length vs)) eqn:Hd.
    + apply env_set_value_at_Ok in H1 as (vs1 & Hvs1 & Hlt & ->).
      rewrite Hvs in Hvs1. injection Hvs1 as <-.
      erewrite (IH _ s' (<[d := constant_undefined g]> vs)); [| |exact H].
      * simpl. rewrite insert_insert_eq. reflexivity.
      * simpl. apply lookup_insert_eq.
    + apply mret_Ok in H1 as [_ ->].
      exact (IH _ s' vs _ Hvs H).
Qed.

Lemma length_apply_phis (vs : list nat) (ps : list HPhi) :
  length (apply_phis vs ps) = length vs.
Proof.
  revert vs. induction ps as [|ph ps IH]; intros vs; [reflexivity|].
  unfold apply_phis in *. simpl. destruct (merged_index ph).
  - rewrite IH. apply length_insert.
  - apply IH.
Qed.

Lemma apply_phis_lookup_other (vs : list nat) (ps : list HPhi) (i : nat) :
  i ∉ omap merged_index ps -> apply_phis vs ps !! i = vs !! i.
Proof.
  revert vs. induction ps as [|ph ps IH]; intros vs Hi; [reflexivity|].
  unfold apply_phis in *. simpl in *. destruct (merged_index ph) as [j|] eqn:Hm.
  - rewrite elem_of_cons in Hi. rewrite IH by tauto.
    apply list_lookup_insert_ne. intros ->. tauto.
  - apply IH. exact Hi.
Qed.

Lemma apply_phis_lookup_phi (vs : list nat) (ps : list HPhi) (ph : HPhi) (i : nat) :
  NoDup (omap merged_index ps) -> ph ∈ ps -> merged_index ph = Some i ->
  (i < length vs)%nat -> apply_phis vs ps !! i = Some (phi_id ph).
Proof.
  revert vs. induction ps as [|ph0 ps IH]; intros vs Hnd Hin Hm Hlt.
  - apply elem_of_nil in Hin. contradiction.
  - unfold apply_phis in *. simpl in *. apply elem_of_cons in Hin.
    destruct (merged_index ph0) as [j|] eqn:Hm0.
    + apply NoDup_cons in Hnd as [Hj Hnd]. destruct Hin as [->|Hin].
      * rewrite Hm in Hm0. injection Hm0 as <-.
        rewrite (apply_phis_lookup_other _ _ i Hj).
        apply list_lookup_insert_eq. exact Hlt.
      * apply IH; auto. rewrite length_insert. exact Hlt.
    + destruct Hin as [->|Hin]; [congruence|]. apply IH; auto.
Qed.

Lemma length_apply_deleted (u : nat) (vs : list nat) (ds : list nat) :
  length (apply_deleted u vs ds) = length vs.
Proof.
  revert vs. induction ds as [|d ds IH]; intros vs; [reflexivity|].
  unfold apply_deleted in *. simpl. destruct (Nat.ltb d (length vs)).
  - rewrite IH. apply length_insert.
  - apply IH.
Qed.

Lemma apply_deleted_lookup_other (u : nat) (vs : list nat) (ds : list nat)
    (i : nat) :
  i ∉ ds -> apply_deleted u vs ds !! i = vs !! i.
Proof.
  revert vs. induction ds as [|d ds IH]; intros vs Hi; [reflexivity|].
  apply not_elem_of_cons in Hi as [Hd Hi].
  unfold apply_deleted in *. simpl. destruct (Nat.ltb d (length vs)).
  - rewrite IH by exact Hi. apply list_lookup_insert_ne. congruence.
  - apply IH. exact Hi.
Qed.

Lemma apply_deleted_lookup_in (u : nat) (vs : list nat) (ds : list nat)
    (i : nat) :
  (vs !! i = Some u \/ i ∈ ds) -> (i < length vs)%nat ->
  apply_deleted u vs ds !! i = Some u.
Proof.
  revert vs. induction ds as [|d ds IH]; intros vs Hi Hlt.
  - destruct Hi as [Hi|Hi]; [exact Hi|]. apply elem_of_nil in Hi. contradiction.
  - unfold apply_deleted in *. simpl.
    destruct (Nat.ltb_spec d (length vs)) as [Hd|Hd]; apply IH.
    + destruct (decide (i = d)) as [->|Hne].
      * left. apply list_lookup_insert_eq. exact Hd.
      * rewrite list_lookup_insert_ne by congruence.
        destruct Hi as [Hi|Hi]; [auto|].
        apply elem_of_cons in Hi as [Hi|Hi]; [congruence|auto].
    + rewrite length_insert. exact Hlt.
    + destruct Hi as [Hi|Hi]; [auto|].
      apply elem_of_cons in Hi as [Hi|Hi]; [subst; lia|auto].
    + exact Hlt.
Qed.

(** C3: at a join (two or more predecessors) [DoBasicBlock] takes the first
    predecessor's final environment as it is: the block's environment is the
    same location and no environment is allocated. The phi loop and then the
    deleted-phi loop write into it. Afterwards a slot with a phi, and not
    listed as a deleted phi, holds that phi. A deleted-phi slot within the
    length holds the undefined constant. Every other slot is unchanged. The
    outgoing argument count is the first predecessor's. The merged indices
    of the phis are taken to be pairwise distinct. *)
Theorem join_block_environment (g : HGraph) (b : HBasicBlock) (p q : nat)
    (rest : list nat) (le : nat) (vals : list nat) (s s' : Builder) :
  is_start_block b = false ->
  predecessors b = p :: q :: rest ->
  block_envs s !! p = Some le ->
  envs s !! le = Some vals ->
  NoDup (omap merged_index (phis b)) ->
  propagate_environment g b s = Ok tt s' ->
  exists vals',
    block_envs s' !! block_id b = Some le /\
    next_env s' = next_env s /\
    envs s' = <[le := vals']> (envs s) /\
    length vals' = length vals /\
    (forall ph i, ph ∈ phis b -> merged_index ph = Some i ->
       i ∉ deleted_phis b -> vals' !! i = Some (phi_id ph)) /\
    (forall i, i ∈ deleted_phis b -> (i < length vals)%nat ->
       vals' !! i = Some (constant_undefined g)) /\
    (forall i, i ∉ omap merged_index (phis b) -> i ∉ deleted_phis b ->
       vals' !! i = vals !! i) /\
    argument_count s' = default (-1) (block_argcs s !! p).
Proof.
  intros Hns Hp Hle Hvals Hnd Hrun.
  unfold propagate_environment in Hrun. rewrite Hns, Hp in Hrun.
  apply bind_Ok in Hrun as (o & s1 & Ho & Hrun).
  unfold last_environment in Ho.
  apply bind_Ok in Ho as (x & s0 & Hg & Ho).
  apply get_Ok in Hg as [-> ->]. apply mret_Ok in Ho as [-> ->].
  rewrite Hle in Hrun.
  apply bind_Ok in Hrun as (le0 & s1 & Hl & Hrun).
  apply mret_Ok in Hl as [-> ->].
  apply bind_Ok in Hrun as ([] & s2 & Hph & Hrun).
  apply (set_phi_values_Ok _ _ _ _ vals) in Hph as [-> Hall]; [|exact Hvals].
  apply bind_Ok in Hrun as ([] & s3 & Hdel & Hrun).
  apply (set_deleted_phis_Ok _ _ _ _ _ (apply_phis vals (phis b))) in Hdel as ->;
    [|apply lookup_insert_eq].
  apply bind_Ok in Hrun as ([] & s4 & Hu & Hrun).
  unfold update_environment in Hu. apply modify_Ok in Hu as ->.
  apply bind_Ok in Hrun as (ac & s5 & Hac & Hrun).
  unfold block_argument_count in Hac.
  apply bind_Ok in Hac as (x & s6 & Hg & Hac).
  apply get_Ok in Hg as [-> ->]. apply mret_Ok in Hac as [-> ->].
  apply modify_Ok in Hrun as ->.
  set (vp := apply_phis vals (phis b)).
  exists (apply_deleted (constant_undefined g) vp (deleted_phis b)).
  cbn. split; [apply lookup_insert_eq|]. split; [reflexivity|].
  split; [rewrite insert_insert_eq; reflexivity|].
  split; [rewrite length_apply_deleted; apply length_apply_phis|].
  split; [|split; [|split]].
  - intros ph i Hin Hm Hnd'.
    rewrite apply_deleted_lookup_other by exact Hnd'.
    apply apply_phis_lookup_phi; auto.
    eapply (Forall_forall _ _) in Hall; [|exact Hin]. exact (Hall i Hm).
  - intros i Hin Hlt. apply apply_deleted_lookup_in; [auto|].
    unfold vp. rewrite length_apply_phis. exact Hlt.
  - intros i Hi Hd. rewrite apply_deleted_lookup_other by exact Hd.
    apply apply_phis_lookup_other. exact Hi.
  - reflexivity.
Qed.

Lemma join_block_environment_witness :
  exists s', propagate_environment g_branch b_join s_join = Ok tt s' /\
  exists vals',
    block_envs s' !! block_id b_join = Some 0%nat /\
    next_env s' = next_env s_join /\
    envs s' = <[0%nat := vals']> (envs s_join) /\
    length vals' = length [5; 6; 7]%nat /\
    (forall ph i, ph ∈ phis b_join -> merged_index ph = Some i ->
       i ∉ deleted_phis b_join -> vals' !! i = Some (phi_id ph)) /\
    (forall i, i ∈ deleted_phis b_join -> (i < length [5; 6; 7]%nat)%nat ->
       vals' !! i = Some (constant_undefined g_branch)) /\
    (forall i, i ∉ omap merged_index (phis b_join) -> i ∉ deleted_phis b_join ->
       vals' !! i = [5; 6; 7]%nat !! i) /\
    argument_count s' = default (-1) (block_argcs s_join !! 1%nat).
Proof.
  destruct (propagate_environment g_branch b_join s_join) as [[] s'|m] eqn:E;
    [|vm_compute in E; discriminate E].
  exists s'. split; [reflexivity|].
  apply (join_block_environment g_branch b_join 1 2 [] 0 [5; 6; 7]%nat
           s_join s'); try reflexivity.
  - cbn. apply NoDup_singleton.
  - exact E.
Defined.

Lemma check_Ok (b : bool) (msg : string) (s s' : Builder) (a : unit) :
  check b msg s = Ok a s' -> b = true /\ s' = s.
Proof.
  unfold check. destruct b; [|discriminate].
  intros H. apply mret_Ok in H as [_ ->]. auto.
Qed.

Lemma lookup_block_Ok (g : HGraph) (id : nat) (s s' : Builder)
    (b : HBasicBlock) :
  lookup_block g id s = Ok b s' -> find_block g id = Some b /\ s' = s.
Proof.
  unfold lookup_block. destruct (find_block g id); [|discriminate].
  intros H. apply mret_Ok in H as [-> ->]. auto.
Qed.

Lemma env_copy_Ok (loc : nat) (s s' : Builder) (n : nat) :
  env_copy loc s = Ok n s' ->
  exists vs, envs s !! loc = Some vs /\ n = next_env s /\
    s' = set_envs (<[next_env s := vs]> (envs s)) (S (next_env s)) s.
Proof.
  unfold env_copy. intros H.
  apply bind_Ok in H as (vs & s1 & Hv & H).
  apply env_values_Ok in Hv as [Hv ->].
  apply bind_Ok in H as (x & s2 & Hg & H). apply get_Ok in Hg as [-> ->].
  apply bind_Ok in H as ([] & s3 & Hm & H). apply modify_Ok in Hm as ->.
  apply mret_Ok in H as [-> ->]. eauto.
Qed.

(** C2 (amended): for a non-start block with exactly one predecessor,
    [DoBasicBlock] gives the block the predecessor's final environment
    location, unless the predecessor has two successors and at least one of
    them is numbered above the block; then it gives a fresh location holding
    a copy, and the predecessor's environment is left as it was. The
    outgoing argument count is the predecessor's, and it is non-negative. *)
Theorem single_predecessor_environment (g : HGraph) (b pb : HBasicBlock)
    (p le : nat) (vals : list nat) (s s' : Builder) :
  is_start_block b = false ->
  predecessors b = [p] ->
  find_block g p = Some pb ->
  block_envs s !! p = Some le ->
  envs s !! le = Some vals ->
  envs s !! next_env s = None ->
  propagate_environment g b s = Ok tt s' ->
  exists le',
    block_envs s' !! block_id b = Some le' /\
    (le' = le <-> copies_environment pb b = false) /\
    envs s' !! le' = Some vals /\
    envs s' !! le = Some vals /\
    (copies_environment pb b = true ->
       envs s !! le' = None /\ envs s' = <[le' := vals]> (envs s)) /\
    (copies_environment pb b = false -> envs s' = envs s) /\
    argument_count s' = default (-1) (block_argcs s !! p) /\
    0 <= argument_count s'.
Proof.
  intros Hns Hp Hpb Hle Hvals Hfresh Hrun.
  unfold propagate_environment in Hrun. rewrite Hns, Hp in Hrun.
  apply bind_Ok in Hrun as ([] & s1 & Hc & Hrun).
  apply check_Ok in Hc as [_ ->].
  apply bind_Ok in Hrun as (pred & s1 & Hl & Hrun).
  apply lookup_block_Ok in Hl as [Hl ->].
  rewrite Hpb in Hl. injection Hl as <-.
  apply bind_Ok in Hrun as (o & s1 & Ho & Hrun).
  unfold last_environment in Ho.
  apply bind_Ok in Ho as (x & s0 & Hg & Ho).
  apply get_Ok in Hg as [-> ->]. apply mret_Ok in Ho as [-> ->].
  rewrite Hle in Hrun.
  apply bind_Ok in Hrun as (le0 & s1 & Hl & Hrun).
  apply mret_Ok in Hl as [-> ->].
  apply bind_Ok in Hrun as (le' & s2 & Hle' & Hrun).
  (* the common tail: UpdateEnvironment and the argument count *)
  apply bind_Ok in Hrun as ([] & s3 & Hu & Hrun).
  unfold update_environment in Hu. apply modify_Ok in Hu as ->.
  apply bind_Ok in Hrun as (ac & s4 & Hac & Hrun).
  unfold block_argument_count in Hac.
  apply bind_Ok in Hac as (x & s5 & Hg & Hac).
  apply get_Ok in Hg as [-> ->]. apply mret_Ok in Hac as [-> ->].
  apply bind_Ok in Hrun as ([] & s4 & Hc & Hrun).
  apply check_Ok in Hc as [Hac ->]. apply Z.leb_le in Hac.
  apply modify_Ok in Hrun as ->.
  exists le'. cbn.
  split; [apply lookup_insert_eq|].
  unfold copies_environment.
  destruct (end_second_successor pb) as [n2|] eqn:E2;
    destruct (end_first_successor pb) as [n1|] eqn:E1;
    try (unfold fatal in Hle'; discriminate Hle').
  - destruct (Nat.ltb (block_id b) n1 || Nat.ltb (block_id b) n2) eqn:Ec.
    + apply env_copy_Ok in Hle' as (vs & Hvs & -> & ->). cbn.
      rewrite Hvals in Hvs. injection Hvs as <-.
      assert (Hne : next_env s <> le) by congruence.
      split; [split; [congruence | discriminate]|].
      split; [apply lookup_insert_eq|].
      split; [rewrite lookup_insert_ne by congruence; exact Hvals|].
      split; [auto|]. split; [discriminate|]. split; [reflexivity|].
      exact Hac.
    + apply mret_Ok in Hle' as [-> ->]. cbn.
      split; [tauto|]. split; [exact Hvals|]. split; [exact Hvals|].
      split; [discriminate|]. split; [reflexivity|]. split; [reflexivity|].
      exact Hac.
  - apply bind_Ok in Hle' as ([] & s5 & Hc & Hle').
    apply check_Ok in Hc as [_ ->]. apply mret_Ok in Hle' as [-> ->]. cbn.
    split; [tauto|]. split; [exact Hvals|]. split; [exact Hvals|].
    split; [discriminate|]. split; [reflexivity|]. split; [reflexivity|].
    exact Hac.
Qed.

Lemma single_predecessor_environment_witness :
  exists s', propagate_environment g_branch b_branch1 s_branch = Ok tt s' /\
  exists le',
    block_envs s' !! block_id b_branch1 = Some le' /\
    (le' = 0%nat <-> copies_environment b_branch0 b_branch1 = false) /\
    envs s' !! le' = Some [5; 6]%nat /\
    envs s' !! 0%nat = Some [5; 6]%nat /\
    (copies_environment b_branch0 b_branch1 = true ->
       envs s_branch !! le' = None /\
       envs s' = <[le' := [5; 6]%nat]> (envs s_branch)) /\
    (copies_environment b_branch0 b_branch1 = false ->
       envs s' = envs s_branch) /\
    argument_count s' = default (-1) (block_argcs s_branch !! 0%nat) /\
    0 <= argument_count s'.
Proof.
  destruct (propagate_environment g_branch b_branch1 s_branch)
    as [[] s'|m] eqn:E; [|vm_compute in E; discriminate E].
  exists s'. split; [reflexivity|].
  apply (single_predecessor_environment g_branch b_branch1 b_branch0 0 0
           [5; 6]%nat s_branch s'); try reflexivity.
  exact E.
Defined.

(* ================================================================== *)
(** ** Aborting is never undone by the handlers *)

Lemma KA_ret {A} (x : A) : keeps_aborted (mret x).
Proof. intros s a s' H Hs. apply mret_Ok in H as [_ ->]. exact Hs. Qed.

Lemma KA_bind {A B} (m : M A) (f : A -> M B) :
  keeps_aborted m -> (forall a, keeps_aborted (f a)) -> keeps_aborted (m ≫= f).
Proof.
  intros Hm Hf s b s' H Hs. apply bind_Ok in H as (a & s1 & H1 & H2).
  exact (Hf a _ _ _ H2 (Hm _ _ _ H1 Hs)).
Qed.

Lemma KA_get : keeps_aborted get.
Proof. intros s a s' H Hs. apply get_Ok in H as [_ ->]. exact Hs. Qed.

Lemma KA_fatal {A} (msg : string) : keeps_aborted (fatal (A:=A) msg).
Proof. intros s a s' H. discriminate H. Qed.

Lemma KA_modify (f : Builder -> Builder) :
  (forall s, status (f s) = status s) -> keeps_aborted (modify f).
Proof. intros Hf s a s' H Hs. apply modify_Ok in H as ->. rewrite Hf. exact Hs. Qed.

Lemma KA_UNIMPLEMENTED : keeps_aborted UNIMPLEMENTED.
Proof. intros s a s' H _. apply modify_Ok in H as ->. reflexivity. Qed.

Lemma KA_check (b : bool) (msg : string) : keeps_aborted (check b msg).
Proof. intros s a s' H Hs. apply check_Ok in H as [_ ->]. exact Hs. Qed.

Create HintDb keeps_aborted.
#[local] Hint Resolve KA_ret KA_get KA_fatal KA_UNIMPLEMENTED KA_check
  : keeps_aborted.

Ltac ka_step :=
  match goal with
  | |- keeps_aborted (_ ≫= _) =>
      apply KA_bind; [|let a := fresh "a" in intros a; cbv beta zeta]
  | |- keeps_aborted (modify _) => apply KA_modify; intros ?; reflexivity
  | |- keeps_aborted (if ?b then _ else _) => destruct b
  | |- keeps_aborted (match ?x with _ => _ end) => destruct x
  | |- keeps_aborted (let _ := _ in _) => cbv zeta
  | |- keeps_aborted _ => solve [eauto with keeps_aborted]
  end.

Ltac ka := repeat ka_step.

Lemma KA_lookup_instr (g : HGraph) (id : nat) : keeps_aborted (lookup_instr g id).
Proof. unfold lookup_instr. ka. Qed.

Lemma KA_lookup_block (g : HGraph) (id : nat) : keeps_aborted (lookup_block g id).
Proof. unfold lookup_block. ka. Qed.

Lemma KA_get_llvm_value (id : nat) : keeps_aborted (get_llvm_value id).
Proof. unfold get_llvm_value. ka. Qed.

Lemma KA_set_llvm_value (id : nat) (v : option LValue) :
  keeps_aborted (set_llvm_value id v).
Proof. unfold set_llvm_value. ka. Qed.

Lemma KA_emit (i : LInstr) : keeps_aborted (emit i).
Proof. unfold emit. ka. Qed.

Lemma KA_use_block (blk : nat) : keeps_aborted (use_block blk).
Proof. unfold use_block. ka. Qed.

Lemma KA_env_values (loc : nat) : keeps_aborted (env_values loc).
Proof. unfold env_values. ka. Qed.

Lemma KA_env_set_value_at (loc i v : nat) :
  keeps_aborted (env_set_value_at loc i v).
Proof. unfold env_set_value_at. ka. apply KA_env_values. Qed.

Lemma KA_last_environment (blk : nat) : keeps_aborted (last_environment blk).
Proof. unfold last_environment. ka. Qed.

#[local] Hint Resolve KA_lookup_instr KA_lookup_block KA_get_llvm_value
  KA_set_llvm_value KA_emit KA_use_block KA_env_values KA_env_set_value_at
  KA_last_environment : keeps_aborted.

Lemma KA_replay_environment (loc : nat) (replay : list (nat * nat)) :
  keeps_aborted (replay_environment loc replay).
Proof.
  induction replay as [|[slot value] rest IH]; simpl; ka.
Qed.

Lemma KA_dummy_uses_loop (g : HGraph) (ops : list nat) :
  keeps_aborted (dummy_uses_loop g ops).
Proof. induction ops as [|o rest IH]; simpl; ka. Qed.

#[local] Hint Resolve KA_replay_environment KA_dummy_uses_loop : keeps_aborted.

Lemma KA_VisitInstruction_body (g : HGraph) (use : nat -> M LValue) :
  (forall v, keeps_aborted (use v)) ->
  forall id, keeps_aborted (VisitInstruction_body g use id).
Proof.
  intros Huse id.
  unfold VisitInstruction_body, CompileToLLVM, DoAdd, DoSub, DoMul, DoChange,
    SmiToInteger32, Integer32ToSmi, DoConstant, DoParameter, DoReturn,
    DoCompareNumericAndBranch, DoSimulate.
  ka.
Qed.

Lemma KA_VisitInstruction (g : HGraph) (fuel id : nat) :
  keeps_aborted (VisitInstruction g fuel id).
Proof.
  revert id. induction fuel as [|fuel IH]; intros id; simpl.
  - apply KA_fatal.
  - apply KA_VisitInstruction_body. intros v. unfold use_value_with. ka.
Qed.

Lemma build_blocks_false (g : HGraph) (fuel : nat) (bs : list HBasicBlock) :
  forall s s', build_blocks g fuel bs s = Ok false s' -> status s' = ABORTED.
Proof.
  induction bs as [|b rest IH]; intros s s' H; simpl in H.
  - apply mret_Ok in H as [H _]. discriminate H.
  - apply bind_Ok in H as ([] & s1 & _ & H).
    apply bind_Ok in H as (ab & s2 & Hab & H).
    unfold is_aborted in Hab. apply bind_Ok in Hab as (x & s3 & Hg & Hab).
    apply get_Ok in Hg as [-> ->]. apply mret_Ok in Hab as [-> ->].
    destruct (status s1) eqn:Hs; try exact (IH _ _ H).
    apply mret_Ok in H as [_ ->]. exact Hs.
Qed.

Lemma typeof_aborts :
  match NewChunk g_typeof 5 (initial_builder {[0%nat := []]} 1) with
  | Ok r s' =>
      r = None /\ status s' = ABORTED /\ llvm_blocks s' !! 1%nat = None /\
      code s' = []
  | Fatal _ => False
  end.
Proof. vm_compute. auto. Qed.

(** C1: [UNIMPLEMENTED] moves the builder to [ABORTED], and nothing a
    handler does afterwards leaves that state: a [VisitInstruction] that
    completes from an aborted builder ends aborted. The instruction loop of
    [DoBasicBlock] does nothing more once the builder is aborted, and the
    end of [DoBasicBlock] keeps the status. When a block ends aborted, the
    block loop of [Build] stops right there and reports failure. [Build]
    returns [NULL] exactly when the builder ends aborted, and [NewChunk]
    returns what [Build] returns. On a function with a [typeof] (a stub,
    not implemented) in its first block, [NewChunk] returns [NULL] and the
    second block is never entered. *)
Theorem unimplemented_aborts_build :
  (forall s, UNIMPLEMENTED s = Ok tt (set_status ABORTED s)) /\
  (forall g fuel id s s', status s = ABORTED ->
     VisitInstruction g fuel id s = Ok tt s' -> status s' = ABORTED) /\
  (forall g fuel l s, status s = ABORTED -> instruction_loop g fuel l s = Ok tt s) /\
  (forall b s s', block_epilogue b s = Ok tt s' -> status s' = status s) /\
  (forall g fuel b rest s s',
     DoBasicBlock g fuel b (option_map block_id (head rest)) s = Ok tt s' ->
     status s' = ABORTED -> build_blocks g fuel (b :: rest) s = Ok false s') /\
  (forall g fuel s r s', Build g fuel s = Ok r s' ->
     (r = None <-> status s' = ABORTED)) /\
  (forall g fuel s, NewChunk g fuel s = Build g fuel s) /\
  (match NewChunk g_typeof 5 (initial_builder {[0%nat := []]} 1) with
   | Ok r s' => r = None /\ status s' = ABORTED /\
                llvm_blocks s' !! 1%nat = None /\ code s' = []
   | Fatal _ => False
   end).
Proof.
  split; [reflexivity|].
  split; [intros g fuel id s s' Hs H; exact (KA_VisitInstruction g fuel id s tt s' H Hs)|].
  split.
  { intros g fuel [|id l] s Hs; [reflexivity|]. simpl.
    unfold is_aborted, mbind, M_bind, get, mret, M_ret. rewrite Hs. reflexivity. }
  split.
  { intros b s s' H. unfold block_epilogue in H.
    apply bind_Ok in H as ([] & s1 & H1 & H).
    apply bind_Ok in H as ([] & s2 & H2 & H).
    apply modify_Ok in H1 as ->. apply modify_Ok in H2 as ->.
    apply modify_Ok in H as ->. reflexivity. }
  split.
  { intros g fuel b rest s s' H Hs. simpl build_blocks.
    rewrite (bind_Ok_intro _ _ _ tt s' H).
    unfold is_aborted, mbind, M_bind, get, mret, M_ret. rewrite Hs. reflexivity. }
  split.
  { intros g fuel s r s' H. unfold Build in H.
    apply bind_Ok in H as ([] & s1 & H1 & H). apply modify_Ok in H1 as ->.
    apply bind_Ok in H as (completed & s2 & H2 & H).
    destruct completed.
    - apply bind_Ok in H as ([] & s3 & H3 & H). apply modify_Ok in H3 as ->.
      apply bind_Ok in H as (x & s4 & Hg & H). apply get_Ok in Hg as [-> ->].
      apply mret_Ok in H as [-> ->]. split; discriminate.
    - apply mret_Ok in H as [-> ->].
      split; [intros _; exact (build_blocks_false _ _ _ _ _ H2) | reflexivity]. }
  split.
  { intros g fuel s. unfold NewChunk, mbind, M_bind.
    destruct (Build g fuel s) as [[c|] s1|m]; reflexivity. }
  exact typeof_aborts.
Qed.

(* ================================================================== *)
(** ** Relations kept by builder computations *)

Section Preserves.

Variable R : Builder -> Builder -> Prop.
Hypothesis R_refl : forall s, R s s.
Hypothesis R_trans : forall s1 s2 s3, R s1 s2 -> R s2 s3 -> R s1 s3.

Lemma P_ret {A} (x : A) : preserves R (mret x).
Proof using R_refl R_trans. intros s a s' H. apply mret_Ok in H as [_ ->]. apply R_refl. Qed.

Lemma P_bind {A B} (m : M A) (f : A -> M B) :
  preserves R m -> (forall a, preserves R (f a)) -> preserves R (m ≫= f).
Proof using R_refl R_trans.
  intros Hm Hf s b s' H. apply bind_Ok in H as (a & s1 & H1 & H2).
  exact (R_trans _ _ _ (Hm _ _ _ H1) (Hf a _ _ _ H2)).
Qed.

Lemma P_get : preserves R get.
Proof using R_refl R_trans. intros s a s' H. apply get_Ok in H as [_ ->]. apply R_refl. Qed.

Lemma P_fatal {A} (msg : string) : preserves R (fatal (A:=A) msg).
Proof using R_refl R_trans. intros s a s' H. discriminate H. Qed.

Lemma P_modify (f : Builder -> Builder) :
  (forall s, R s (f s)) -> preserves R (modify f).
Proof using R_refl R_trans. intros Hf s a s' H. apply modify_Ok in H as ->. apply Hf. Qed.

Lemma P_check (b : bool) (msg : string) : preserves R (check b msg).
Proof using R_refl R_trans. intros s a s' H. apply check_Ok in H as [_ ->]. apply R_refl. Qed.

Lemma P_lookup_instr (g : HGraph) (id : nat) : preserves R (lookup_instr g id).
Proof using R_refl R_trans. intros s a s' H. apply lookup_instr_Ok in H as [_ ->]. apply R_refl. Qed.

Lemma P_lookup_block (g : HGraph) (id : nat) : preserves R (lookup_block g id).
Proof using R_refl R_trans. intros s a s' H. apply lookup_block_Ok in H as [_ ->]. apply R_refl. Qed.

Lemma P_get_llvm_value (id : nat) : preserves R (get_llvm_value id).
Proof using R_refl R_trans.
  intros s a s' H. unfold get_llvm_value in H.
  apply bind_Ok in H as (x & s1 & Hg & H).
  apply get_Ok in Hg as [-> ->]. apply mret_Ok in H as [_ ->]. apply R_refl.
Qed.

Lemma P_env_values (loc : nat) : preserves R (env_values loc).
Proof using R_refl R_trans. intros s a s' H. apply env_values_Ok in H as [_ ->]. apply R_refl. Qed.

Lemma P_last_environment (blk : nat) : preserves R (last_environment blk).
Proof using R_refl R_trans.
  intros s a s' H. unfold last_environment in H.
  apply bind_Ok in H as (x & s1 & Hg & H).
  apply get_Ok in Hg as [-> ->]. apply mret_Ok in H as [_ ->]. apply R_refl.
Qed.

Lemma P_block_argument_count (blk : nat) : preserves R (block_argument_count blk).
Proof using R_refl R_trans.
  intros s a s' H. unfold block_argument_count in H.
  apply bind_Ok in H as (x & s1 & Hg & H).
  apply get_Ok in Hg as [-> ->]. apply mret_Ok in H as [_ ->]. apply R_refl.
Qed.

Lemma P_is_aborted : preserves R is_aborted.
Proof using R_refl R_trans.
  intros s a s' H. unfold is_aborted in H.
  apply bind_Ok in H as (x & s1 & Hg & H).
  apply get_Ok in Hg as [-> ->]. apply mret_Ok in H as [_ ->]. apply R_refl.
Qed.

End Preserves.

Lemma handler_step_refl (s : Builder) : handler_step s s.
Proof. unfold handler_step. split_and!; try reflexivity. left. reflexivity. Qed.

Lemma handler_step_trans (s1 s2 s3 : Builder) :
  handler_step s1 s2 -> handler_step s2 s3 -> handler_step s1 s3.
Proof.
  unfold handler_step.
  intros (Hc1 & Hb1 & Hn1 & Ha1 & He1 & Hg1 & Hcb1 & Hnb1 & Hs1)
         (Hc2 & Hb2 & Hn2 & Ha2 & He2 & Hg2 & Hcb2 & Hnb2 & Hs2).
  split_and!; try congruence.
  - etransitivity; eauto.
  - etransitivity; eauto.
  - lia.
  - destruct Hs1, Hs2; first [right; congruence | left; congruence].
Qed.

Lemma grows_refl (s : Builder) : grows s s.
Proof. unfold grows. split_and!; [reflexivity | reflexivity | auto]. Qed.

Lemma grows_trans (s1 s2 s3 : Builder) : grows s1 s2 -> grows s2 s3 -> grows s1 s3.
Proof.
  unfold grows. intros (Hc1 & Hb1 & Ha1) (Hc2 & Hb2 & Ha2).
  split_and!; [etransitivity; eauto | etransitivity; eauto | auto].
Qed.

Lemma handler_step_grows (s s' : Builder) : handler_step s s' -> grows s s'.
Proof.
  unfold handler_step, grows. intros (Hc & Hb & _ & _ & _ & Hg & _).
  rewrite Hg. auto.
Qed.

Lemma use_block_Ok (blk : nat) (s s' : Builder) (lb : nat) :
  use_block blk s = Ok lb s' ->
  (llvm_blocks s !! blk = Some lb /\ s' = s) \/
  (llvm_blocks s !! blk = None /\ lb = next_llvm_block s /\
   s' = set_llvm_blocks (<[blk := lb]> (llvm_blocks s)) (S lb) s).
Proof.
  unfold use_block. intros H.
  apply bind_Ok in H as (x & s1 & Hg & H). apply get_Ok in Hg as [-> ->].
  destruct (llvm_blocks s !! blk) as [lb0|] eqn:E.
  - apply mret_Ok in H as [-> ->]. auto.
  - apply bind_Ok in H as ([] & s2 & Hm & H). apply modify_Ok in Hm as ->.
    apply mret_Ok in H as [-> ->]. right. auto.
Qed.

Lemma HS_use_block (blk : nat) : preserves handler_step (use_block blk).
Proof.
  intros s lb s' H. apply use_block_Ok in H as [[_ ->]|(Hn & -> & ->)].
  - apply handler_step_refl.
  - unfold handler_step. cbn. split_and!; try reflexivity; [| lia | left; reflexivity].
    apply insert_subseteq. exact Hn.
Qed.

Lemma HS_emit (i : LInstr) : preserves handler_step (emit i).
Proof.
  apply P_modify; [exact handler_step_refl | exact handler_step_trans |].
  intros s. unfold handler_step. cbn.
  split_and!; try reflexivity; [apply prefix_app_r; reflexivity | left; reflexivity].
Qed.

Lemma HS_UNIMPLEMENTED : preserves handler_step UNIMPLEMENTED.
Proof.
  apply P_modify; [exact handler_step_refl | exact handler_step_trans |].
  intros s. unfold handler_step. cbn.
  split_and!; try reflexivity. right. reflexivity.
Qed.

Create HintDb handler_step.
#[local] Hint Resolve handler_step_refl handler_step_trans HS_use_block HS_emit
  HS_UNIMPLEMENTED : handler_step.
#[local] Hint Extern 2 (preserves handler_step _) =>
  first [ apply P_ret | apply P_get | apply P_fatal | apply P_check
        | apply P_lookup_instr | apply P_lookup_block | apply P_get_llvm_value
        | apply P_env_values | apply P_last_environment
        | apply P_block_argument_count | apply P_is_aborted ];
  eauto with handler_step : handler_step.

Ltac hs_step :=
  match goal with
  | |- preserves handler_step (_ ≫= _) =>
      apply P_bind; [exact handler_step_refl | exact handler_step_trans | |
                     let a := fresh "a" in intros a; cbv beta zeta]
  | |- preserves handler_step (modify _) =>
      apply P_modify; [exact handler_step_refl | exact handler_step_trans |];
      intros ?; unfold handler_step; cbn; split_and!;
      try reflexivity; left; reflexivity
  | |- preserves handler_step (if ?b then _ else _) => destruct b
  | |- preserves handler_step (match ?x with _ => _ end) => destruct x
  | |- preserves handler_step (let _ := _ in _) => cbv zeta
  | |- preserves handler_step _ => solve [eauto with handler_step]
  end.

Ltac hs := repeat hs_step.

Lemma HS_set_llvm_value (id : nat) (v : option LValue) :
  preserves handler_step (set_llvm_value id v).
Proof. unfold set_llvm_value. hs. Qed.

Lemma HS_env_set_value_at (loc i v : nat) :
  preserves handler_step (env_set_value_at loc i v).
Proof. unfold env_set_value_at. hs. Qed.

#[local] Hint Resolve HS_set_llvm_value HS_env_set_value_at : handler_step.

Lemma HS_replay_environment (loc : nat) (replay : list (nat * nat)) :
  preserves handler_step (replay_environment loc replay).
Proof. induction replay as [|[slot value] rest IH]; simpl; hs. Qed.

Lemma HS_dummy_uses_loop (g : HGraph) (ops : list nat) :
  preserves handler_step (dummy_uses_loop g ops).
Proof. induction ops as [|o rest IH]; simpl; hs. Qed.

#[local] Hint Resolve HS_replay_environment HS_dummy_uses_loop : handler_step.

Lemma HS_VisitInstruction_body (g : HGraph) (use : nat -> M LValue) :
  (forall v, preserves handler_step (use v)) ->
  forall id, preserves handler_step (VisitInstruction_body g use id).
Proof.
  intros Huse id.
  unfold VisitInstruction_body, CompileToLLVM, DoAdd, DoSub, DoMul, DoChange,
    SmiToInteger32, Integer32ToSmi, DoConstant, DoParameter, DoReturn,
    DoCompareNumericAndBranch, DoSimulate.
  hs.
Qed.

Lemma HS_VisitInstruction (g : HGraph) (fuel id : nat) :
  preserves handler_step (VisitInstruction g fuel id).
Proof.
  revert id. induction fuel as [|fuel IH]; intros id; simpl.
  - hs.
  - apply HS_VisitInstruction_body. intros v. unfold use_value_with. hs.
Qed.

Lemma HS_Use (g : HGraph) (fuel v : nat) : preserves handler_step (Use g fuel v).
Proof.
  unfold Use, use_value_with. hs. apply HS_VisitInstruction.
Qed.

Lemma HS_instruction_loop (g : HGraph) (fuel : nat) (l : list nat) :
  preserves handler_step (instruction_loop g fuel l).
Proof.
  induction l as [|id rest IH]; simpl; hs. apply HS_VisitInstruction.
Qed.

Create HintDb grows.
#[local] Hint Resolve grows_refl grows_trans : grows.
#[local] Hint Extern 2 (preserves grows _) =>
  first [ apply P_ret | apply P_get | apply P_fatal | apply P_check
        | apply P_lookup_instr | apply P_lookup_block | apply P_get_llvm_value
        | apply P_env_values | apply P_last_environment
        | apply P_block_argument_count | apply P_is_aborted ];
  eauto with grows : grows.

Lemma preserves_handler_grows {A} (m : M A) :
  preserves handler_step m -> preserves grows m.
Proof. intros H s a s' Hm. apply handler_step_grows. exact (H _ _ _ Hm). Qed.

Ltac gr_step :=
  match goal with
  | |- preserves grows (_ ≫= _) =>
      apply P_bind; [exact grows_refl | exact grows_trans | |
                     let a := fresh "a" in intros a; cbv beta zeta]
  | |- preserves grows (modify _) =>
      apply P_modify; [exact grows_refl | exact grows_trans |];
      intros ?; unfold grows; cbn; split_and!; try reflexivity;
      let k := fresh "k" in intros k ?;
      first [assumption | rewrite lookup_insert_is_Some'; auto]
  | |- preserves grows (if ?b then _ else _) => destruct b
  | |- preserves grows (match ?x with _ => _ end) => destruct x
  | |- preserves grows (let _ := _ in _) => cbv zeta
  | |- preserves grows _ => solve [eauto with grows]
  end.

Ltac gr := repeat gr_step.

Lemma GR_use_block (blk : nat) : preserves grows (use_block blk).
Proof. apply preserves_handler_grows, HS_use_block. Qed.

Lemma GR_env_set_value_at (loc i v : nat) :
  preserves grows (env_set_value_at loc i v).
Proof. apply preserves_handler_grows, HS_env_set_value_at. Qed.

Lemma GR_instruction_loop (g : HGraph) (fuel : nat) (l : list nat) :
  preserves grows (instruction_loop g fuel l).
Proof. apply preserves_handler_grows, HS_instruction_loop. Qed.

#[local] Hint Resolve GR_use_block GR_env_set_value_at GR_instruction_loop : grows.

Lemma GR_set_phi_values (loc : nat) (ps : list HPhi) :
  preserves grows (set_phi_values loc ps).
Proof. induction ps as [|ph ps IH]; simpl; gr. Qed.

Lemma GR_set_deleted_phis (g : HGraph) (loc : nat) (ds : list nat) :
  preserves grows (set_deleted_phis g loc ds).
Proof. induction ds as [|d ds IH]; simpl; gr. Qed.

#[local] Hint Resolve GR_set_phi_values GR_set_deleted_phis : grows.

Lemma GR_DoBasicBlock (g : HGraph) (fuel : nat) (b : HBasicBlock)
    (next : option nat) :
  preserves grows (DoBasicBlock g fuel b next).
Proof.
  unfold DoBasicBlock, block_prologue, propagate_environment, env_copy,
    update_environment, block_epilogue.
  gr.
Qed.

#[local] Hint Resolve GR_DoBasicBlock : grows.

Lemma GR_build_blocks (g : HGraph) (fuel : nat) (bs : list HBasicBlock) :
  preserves grows (build_blocks g fuel bs).
Proof. induction bs as [|b rest IH]; simpl; gr. Qed.

Lemma use_block_lookup (blk : nat) (s s' : Builder) (lb : nat) :
  use_block blk s = Ok lb s' -> llvm_blocks s' !! blk = Some lb.
Proof.
  intros H. apply use_block_Ok in H as [[Hl ->]|(_ & -> & ->)]; [exact Hl|].
  apply lookup_insert_eq.
Qed.

Lemma DoBasicBlock_Ok (g : HGraph) (fuel : nat) (b : HBasicBlock)
    (next : option nat) (s s' : Builder) :
  DoBasicBlock g fuel b next s = Ok tt s' ->
  status s = BUILDING /\
  exists s1 s2 s3,
    block_prologue b next s = Ok tt s1 /\
    is_Some (llvm_blocks s1 !! block_id b) /\
    propagate_environment g b s1 = Ok tt s2 /\
    instruction_loop g fuel (block_instrs b) s2 = Ok tt s3 /\
    s' = set_current_block None (set_next_block None
           (set_block_argcs (<[block_id b := argument_count s3]> (block_argcs s3))
              s3)).
Proof.
  unfold DoBasicBlock. intros H.
  apply bind_Ok in H as ([] & s1 & Hp & H).
  apply bind_Ok in H as ([] & s2 & He & H).
  apply bind_Ok in H as ([] & s3 & Hl & H).
  pose proof Hp as Hp0. unfold block_prologue in Hp.
  apply bind_Ok in Hp as (x & s0 & Hg & Hp). apply get_Ok in Hg as [-> ->].
  apply bind_Ok in Hp as ([] & s0 & Hc & Hp). apply check_Ok in Hc as [Hc ->].
  apply bind_Ok in Hp as (lb & s4 & Hu & Hp).
  apply bind_Ok in Hp as ([] & s5 & Hm1 & Hm2).
  apply modify_Ok in Hm1 as ->. apply modify_Ok in Hm2 as ->.
  split; [destruct (status s); congruence|].
  exists (set_next_block next (set_current_block (Some (block_id b)) s4)), s2, s3.
  split; [exact Hp0|].
  split; [cbn; rewrite (use_block_lookup _ _ _ _ Hu); eauto|].
  split; [exact He|]. split; [exact Hl|].
  unfold block_epilogue in H.
  apply bind_Ok in H as ([] & s6 & H1 & H).
  apply bind_Ok in H as ([] & s7 & H2 & H3).
  apply modify_Ok in H1 as ->. apply modify_Ok in H2 as ->.
  apply modify_Ok in H3 as ->. reflexivity.
Qed.

Lemma GR_propagate_environment (g : HGraph) (b : HBasicBlock) :
  preserves grows (propagate_environment g b).
Proof.
  unfold propagate_environment, env_copy, update_environment. gr.
Qed.

(** [DoBasicBlock] needs a building builder. When it completes, the block
    has its LLVM block, the current and next block are cleared, and the
    environment and argument count set at the block's start are still the
    block's: the instructions in between do not change them, and the
    argument count is recorded for the block. Code is only appended. *)
Theorem DoBasicBlock_leaves_block_state (g : HGraph) (fuel : nat)
    (b : HBasicBlock) (next : option nat) (s s' : Builder) :
  DoBasicBlock g fuel b next s = Ok tt s' ->
  status s = BUILDING /\
  current_block s' = None /\ next_block s' = None /\
  is_Some (llvm_blocks s' !! block_id b) /\
  exists s1 s2,
    block_prologue b next s = Ok tt s1 /\
    propagate_environment g b s1 = Ok tt s2 /\
    block_envs s' = block_envs s2 /\
    argument_count s' = argument_count s2 /\
    block_argcs s' = <[block_id b := argument_count s2]> (block_argcs s2) /\
    prefix (code s2) (code s').
Proof.
  intros H. apply DoBasicBlock_Ok in H
    as (Hst & s1 & s2 & s3 & Hp & Hlb & He & Hl & ->).
  pose proof (HS_instruction_loop g fuel _ _ _ _ Hl)
    as (Hc & Hb & _ & Ha & Hbe & Hba & _).
  pose proof (GR_propagate_environment g b _ _ _ He) as (_ & Hb1 & _).
  cbn. split_and!; [exact Hst | reflexivity | reflexivity | |].
  - destruct Hlb as [lb Hlb]. exists lb.
    apply (lookup_weaken (llvm_blocks s1)); [exact Hlb|].
    etransitivity; eauto.
  - exists s1, s2. rewrite Ha, Hbe, Hba. split_and!; auto.
Qed.

(** On the start block, [DoBasicBlock] leaves the graph's start environment
    as the block's environment and records an outgoing argument count of
    0. *)
Theorem DoBasicBlock_start_block (g : HGraph) (fuel : nat) (b : HBasicBlock)
    (next : option nat) (s s' : Builder) :
  is_start_block b = true ->
  DoBasicBlock g fuel b next s = Ok tt s' ->
  block_envs s' !! block_id b = Some (start_environment g) /\
  block_argcs s' !! block_id b = Some 0 /\
  argument_count s' = 0.
Proof.
  intros Hs H. apply DoBasicBlock_Ok in H
    as (_ & s1 & s2 & s3 & _ & _ & He & Hl & ->).
  pose proof (HS_instruction_loop g fuel _ _ _ _ Hl)
    as (_ & _ & _ & Ha & Hbe & _).
  unfold propagate_environment in He. rewrite Hs in He.
  apply bind_Ok in He as ([] & s4 & Hu & Hm).
  unfold update_environment in Hu. apply modify_Ok in Hu as ->.
  apply modify_Ok in Hm as ->.
  cbn. rewrite Ha, Hbe. cbn. split_and!; [apply lookup_insert_eq | | reflexivity].
  apply lookup_insert_eq.
Qed.

Lemma DoBasicBlock_records (g : HGraph) (fuel : nat) (b : HBasicBlock)
    (next : option nat) (s s' : Builder) :
  DoBasicBlock g fuel b next s = Ok tt s' ->
  is_Some (llvm_blocks s' !! block_id b) /\ is_Some (block_argcs s' !! block_id b).
Proof.
  intros H. apply DoBasicBlock_Ok in H
    as (_ & s1 & s2 & s3 & _ & [lb Hlb] & He & Hl & ->).
  pose proof (HS_instruction_loop g fuel _ _ _ _ Hl) as (_ & Hb & _).
  pose proof (GR_propagate_environment g b _ _ _ He) as (_ & Hb1 & _).
  cbn. split.
  - exists lb. apply (lookup_weaken (llvm_blocks s1)); [exact Hlb|].
    etransitivity; eauto.
  - rewrite lookup_insert_eq. eauto.
Qed.

Lemma build_blocks_true (g : HGraph) (fuel : nat) (bs : list HBasicBlock) :
  forall s s', build_blocks g fuel bs s = Ok true s' ->
  forall b, b ∈ bs ->
  is_Some (llvm_blocks s' !! block_id b) /\ is_Some (block_argcs s' !! block_id b).
Proof.
  induction bs as [|b0 rest IH]; intros s s' H b Hb.
  - apply elem_of_nil in Hb. contradiction.
  - simpl in H. apply bind_Ok in H as ([] & s1 & H1 & H).
    apply bind_Ok in H as (ab & s2 & Hab & H).
    unfold is_aborted in Hab. apply bind_Ok in Hab as (x & s3 & Hg & Hab).
    apply get_Ok in Hg as [-> ->]. apply mret_Ok in Hab as [-> ->].
    assert (Hrest : build_blocks g fuel rest s1 = Ok true s').
    { destruct (status s1); try exact H. apply mret_Ok in H as [H _]. discriminate H. }
    apply elem_of_cons in Hb as [->|Hb]; [|exact (IH _ _ Hrest b Hb)].
    destruct (DoBasicBlock_records _ _ _ _ _ _ H1) as [[lb Hlb] Ha].
    pose proof (GR_build_blocks g fuel rest _ _ _ Hrest) as (_ & Hsub & Hk).
    split; [exists lb; exact (lookup_weaken _ _ _ _ Hlb Hsub) | auto].
Qed.

(** When [Build] returns a chunk, the builder is [DONE], the chunk holds
    all the code built, no code that was there before is lost, and every
    block of the graph was entered: it has an LLVM block and a recorded
    outgoing argument count. *)
Theorem Build_success (g : HGraph) (fuel : nat) (s s' : Builder)
    (c : LLVMChunk) :
  Build g fuel s = Ok (Some c) s' ->
  status s' = DONE /\ chunk_code c = code s' /\ prefix (code s) (code s') /\
  forall b, b ∈ graph_blocks g ->
    is_Some (llvm_blocks s' !! block_id b) /\
    is_Some (block_argcs s' !! block_id b).
Proof.
  intros H. unfold Build in H.
  apply bind_Ok in H as ([] & s1 & H1 & H). apply modify_Ok in H1 as ->.
  apply bind_Ok in H as (completed & s2 & H2 & H).
  destruct completed; [|apply mret_Ok in H as [H _]; discriminate H].
  apply bind_Ok in H as ([] & s3 & H3 & H). apply modify_Ok in H3 as ->.
  apply bind_Ok in H as (x & s4 & Hg & H). apply get_Ok in Hg as [-> ->].
  apply mret_Ok in H as [Hc ->]. injection Hc as ->.
  pose proof (GR_build_blocks g fuel _ _ _ _ H2) as (Hp & _).
  cbn. split_and!; [reflexivity | reflexivity | exact Hp |].
  intros b Hb. exact (build_blocks_true g fuel _ _ _ H2 b Hb).
Qed.

(** [Use(HValue* value)] on a value that already has its LLVM value returns
    that value and changes nothing: the value is not visited again and no
    code is emitted. *)
Theorem Use_memoized (g : HGraph) (fuel v : nat) (i : HInstruction) (x : LValue)
    (s : Builder) :
  find_instr g v = Some i ->
  llvm_values s !! v = Some x ->
  Use g fuel v s = Ok x s.
Proof.
  intros Hi Hx.
  unfold Use, use_value_with, lookup_instr, get_llvm_value, get.
  unfold mbind, M_bind, mret, M_ret. rewrite Hi. cbn. rewrite Hx. cbn.
  rewrite andb_false_r. cbn. rewrite Hx. reflexivity.
Qed.

Lemma Use_memoized_witness :
  find_instr g_arith 1 = Some (mk_instr 1 (OParameter 1) RInteger32 false) /\
  llvm_values (set_llvm_values {[1%nat := LArg 3]} (building ∅ 0)) !! 1%nat
    = Some (LArg 3) /\
  Use g_arith 5 1 (set_llvm_values {[1%nat := LArg 3]} (building ∅ 0))
    = Ok (LArg 3) (set_llvm_values {[1%nat := LArg 3]} (building ∅ 0)).
Proof.
  split; [reflexivity|]. split; [reflexivity|].
  apply (Use_memoized g_arith 5 1 (mk_instr 1 (OParameter 1) RInteger32 false));
    reflexivity.
Defined.

(** What [Use(HValue* value)] returns is the value's memoized LLVM value in
    the state it leaves. *)
Theorem Use_returns_memoized (g : HGraph) (fuel v : nat) (s s' : Builder)
    (x : LValue) :
  Use g fuel v s = Ok x s' -> llvm_values s' !! v = Some x.
Proof.
  unfold Use, use_value_with. intros H.
  apply bind_Ok in H as (i & s1 & _ & H).
  apply bind_Ok in H as (o & s2 & _ & H).
  apply bind_Ok in H as ([] & s3 & _ & H).
  apply bind_Ok in H as (o' & s4 & Ho & H).
  unfold get_llvm_value in Ho. apply bind_Ok in Ho as (y & s5 & Hg & Ho).
  apply get_Ok in Hg as [-> ->]. apply mret_Ok in Ho as [-> ->].
  destruct (llvm_values s3 !! v) as [z|] eqn:E; [|discriminate H].
  apply mret_Ok in H as [-> ->]. exact E.
Qed.

Lemma Use_returns_memoized_witness :
  match Use g_arith 5 2 (building ∅ 0) with
  | Ok x s' => llvm_values s' !! 2%nat = Some x /\ x = LInt64 1
  | Fatal _ => False
  end.
Proof.
  destruct (Use g_arith 5 2 (building ∅ 0)) as [x s'|m] eqn:E;
    [|vm_compute in E; discriminate E].
  split; [exact (Use_returns_memoized g_arith 5 2 _ s' x E)|].
  vm_compute in E. injection E as <- _. reflexivity.
Defined.

(** [Use(HValue* value)] on a value that is not emitted at its uses and has
    no LLVM value yet does not visit it: the [DCHECK(value->llvm_value())]
    stops the process. *)
Theorem Use_unvisited_value_fatal (g : HGraph) (fuel v : nat)
    (i : HInstruction) (s : Builder) :
  find_instr g v = Some i ->
  emit_at_uses i = false ->
  llvm_values s !! v = None ->
  Use g fuel v s = Fatal "DCHECK(value->llvm_value())".
Proof.
  intros Hi He Hx.
  unfold Use, use_value_with, lookup_instr, get_llvm_value, get.
  unfold mbind, M_bind, mret, M_ret. rewrite Hi. cbn. rewrite Hx, He. cbn.
  rewrite Hx. reflexivity.
Qed.

Lemma Use_unvisited_value_fatal_witness :
  Use g_arith 5 1 (building ∅ 0) = Fatal "DCHECK(value->llvm_value())".
Proof.
  apply (Use_unvisited_value_fatal g_arith 5 1
           (mk_instr 1 (OParameter 1) RInteger32 false)); reflexivity.
Defined.

(** [Use(HBasicBlock* block)] creates the block's LLVM block once: a second
    use returns the same LLVM block and changes nothing. *)
Theorem use_block_memoized (blk : nat) (s s1 : Builder) (lb : nat) :
  use_block blk s = Ok lb s1 ->
  llvm_blocks s1 !! blk = Some lb /\ use_block blk s1 = Ok lb s1.
Proof.
  intros H. pose proof (use_block_lookup _ _ _ _ H) as Hl.
  split; [exact Hl|].
  unfold use_block, get, mbind, M_bind. rewrite Hl. reflexivity.
Qed.

Lemma use_block_memoized_witness :
  use_block 7 (building ∅ 0) = Ok 0%nat
    (set_llvm_blocks {[7%nat := 0%nat]} 1 (building ∅ 0)) /\
  llvm_blocks (set_llvm_blocks {[7%nat := 0%nat]} 1 (building ∅ 0)) !! 7%nat
    = Some 0%nat /\
  use_block 7 (set_llvm_blocks {[7%nat := 0%nat]} 1 (building ∅ 0))
    = Ok 0%nat (set_llvm_blocks {[7%nat := 0%nat]} 1 (building ∅ 0)).
Proof.
  split; [reflexivity|].
  apply (use_block_memoized 7 (building ∅ 0)). reflexivity.
Defined.

Lemma use_block_fresh (blk : nat) (s s' : Builder) (lb : nat) :
  llvm_blocks_fresh s -> use_block blk s = Ok lb s' -> llvm_blocks_fresh s'.
Proof.
  intros [Hlt Hinj] H. apply use_block_Ok in H as [[_ ->]|(Hn & -> & ->)].
  - split; assumption.
  - unfold llvm_blocks_fresh. cbn. split.
    + intros k v Hk. destruct (decide (k = blk)) as [->|Hne].
      * rewrite lookup_insert_eq in Hk. injection Hk as <-. lia.
      * rewrite lookup_insert_ne in Hk by congruence. specialize (Hlt _ _ Hk). lia.
    + intros k1 k2 v H1 H2.
      destruct (decide (k1 = blk)) as [->|Hne1];
        destruct (decide (k2 = blk)) as [->|Hne2]; try reflexivity.
      * rewrite lookup_insert_eq in H1. injection H1 as <-.
        rewrite lookup_insert_ne in H2 by congruence.
        specialize (Hlt _ _ H2). lia.
      * rewrite lookup_insert_eq in H2. injection H2 as <-.
        rewrite lookup_insert_ne in H1 by congruence.
        specialize (Hlt _ _ H1). lia.
      * rewrite lookup_insert_ne in H1, H2 by congruence. eauto.
Qed.

(** [Use(HBasicBlock* block)] gives two different Hydrogen blocks two
    different LLVM blocks, and keeps the numbering fresh. *)
Theorem use_block_distinct (b1 b2 : nat) (s s1 s2 : Builder) (l1 l2 : nat) :
  llvm_blocks_fresh s ->
  use_block b1 s = Ok l1 s1 ->
  use_block b2 s1 = Ok l2 s2 ->
  b1 <> b2 ->
  l1 <> l2 /\ llvm_blocks_fresh s2.
Proof.
  intros Hf H1 H2 Hne.
  pose proof (use_block_fresh _ _ _ _ Hf H1) as Hf1.
  pose proof (use_block_fresh _ _ _ _ Hf1 H2) as Hf2.
  split; [|exact Hf2].
  pose proof (use_block_lookup _ _ _ _ H1) as Hl1.
  pose proof (use_block_lookup _ _ _ _ H2) as Hl2.
  pose proof (HS_use_block b2 _ _ _ H2) as (_ & Hsub & _).
  pose proof (lookup_weaken _ _ _ _ Hl1 Hsub) as Hl1'.
  intros ->. apply Hne. destruct Hf2 as [_ Hinj]. exact (Hinj _ _ _ Hl1' Hl2).
Qed.

Lemma use_block_distinct_witness :
  (0 <> 1)%nat /\
  llvm_blocks_fresh
    (set_llvm_blocks {[8%nat := 1%nat; 7%nat := 0%nat]} 2 (building ∅ 0)).
Proof.
  apply (use_block_distinct 7 8 (building ∅ 0)
           (set_llvm_blocks {[7%nat := 0%nat]} 1 (building ∅ 0))
           (set_llvm_blocks {[8%nat := 1%nat; 7%nat := 0%nat]} 2 (building ∅ 0))).
  - split; intros k; [intros lb|intros k2 lb];
      cbn; rewrite lookup_empty; discriminate.
  - reflexivity.
  - reflexivity.
  - lia.
Defined.

Lemma is_aborted_eq (s : Builder) :
  is_aborted s = Ok (match status s with ABORTED => true | _ => false end) s.
Proof. reflexivity. Qed.

(** The instruction loop of [DoBasicBlock] generates no code for values
    emitted at their uses (constants): on a run of such instructions it
    leaves the builder as it is. *)
Theorem instruction_loop_skips_emit_at_uses (g : HGraph) (fuel : nat)
    (l : list nat) (s : Builder) :
  Forall (fun id => exists i, find_instr g id = Some i /\ emit_at_uses i = true) l ->
  instruction_loop g fuel l s = Ok tt s.
Proof.
  induction 1 as [|id l (i & Hi & He) Hl IH]; [reflexivity|].
  simpl. rewrite (bind_Ok_intro _ _ _ _ _ (is_aborted_eq s)).
  destruct (status s); try reflexivity;
    unfold lookup_instr, mbind, M_bind, mret, M_ret; rewrite Hi, He; exact IH.
Qed.

Lemma instruction_loop_skips_emit_at_uses_witness :
  instruction_loop g_arith 5 [2%nat; 2%nat] (building ∅ 0) = Ok tt (building ∅ 0).
Proof.
  apply instruction_loop_skips_emit_at_uses.
  repeat constructor; eexists; split; reflexivity.
Defined.

(** [VisitInstruction] on a control instruction whose successor is known
    emits one branch to the successor's LLVM block and does not run the
    instruction's own handler: no LLVM value is bound and the status is
    unchanged. *)
Theorem VisitInstruction_known_successor (g : HGraph) (fuel id succ : nat)
    (i : HInstruction) (s : Builder) :
  find_instr g id = Some i ->
  can_replace_with_dummy_uses i = false ->
  is_control i = true ->
  known_successor i = Some succ ->
  exists s' lb,
    VisitInstruction g (S fuel) id s = Ok tt s' /\
    code s' = code s ++ [IBr lb] /\
    llvm_blocks s' !! succ = Some lb /\
    llvm_values s' = llvm_values s /\
    status s' = status s /\
    current_instruction s' = current_instruction s.
Proof.
  intros Hi Hd Hc Hk. simpl.
  unfold VisitInstruction_body, lookup_instr, get, modify, use_block, emit.
  unfold mbind, M_bind, mret, M_ret. rewrite Hi. cbn. rewrite Hd, Hc, Hk.
  destruct (llvm_blocks s !! succ) as [lb|] eqn:E.
  - eexists _, lb. split; [cbn; rewrite E; reflexivity|]. cbn. split_and!; auto.
  - eexists _, (next_llvm_block s). split; [cbn; rewrite E; reflexivity|]. cbn.
    split_and!; auto. apply lookup_insert_eq.
Qed.

Lemma VisitInstruction_known_successor_witness :
  exists s' lb,
    VisitInstruction g_control 1 0 (building ∅ 0) = Ok tt s' /\
    code s' = code (building ∅ 0) ++ [IBr lb] /\
    llvm_blocks s' !! 1%nat = Some lb /\
    llvm_values s' = llvm_values (building ∅ 0) /\
    status s' = status (building ∅ 0) /\
    current_instruction s' = current_instruction (building ∅ 0).
Proof.
  apply (VisitInstruction_known_successor g_control 0 0 1
           (mkInstr 0 (OGoto 1) RNone false false [] true (Some 1%nat)
              false false false)); reflexivity.
Defined.

Lemma dummy_uses_loop_Ok (g : HGraph) (ops : list nat) :
  forall s s', dummy_uses_loop g ops s = Ok tt s' ->
  code s' = code s /\ llvm_values s' = llvm_values s.
Proof.
  induction ops as [|o rest IH]; intros s s' H; simpl in H.
  - apply mret_Ok in H as [_ ->]. auto.
  - apply bind_Ok in H as ([] & s1 & H1 & H).
    destruct (operand_is_control g o).
    + apply mret_Ok in H1 as [_ ->]. exact (IH _ _ H).
    + apply modify_Ok in H1 as ->. exact (IH _ _ H).
Qed.

(** [VisitInstruction] on an instruction that can be replaced with dummy
    uses never compiles it: every branch of that path is [UNIMPLEMENTED],
    so when it completes no code was emitted, no LLVM value was bound, and
    the builder is aborted. *)
Theorem VisitInstruction_dummy_uses (g : HGraph) (fuel id : nat)
    (i : HInstruction) (s s' : Builder) :
  find_instr g id = Some i ->
  can_replace_with_dummy_uses i = true ->
  VisitInstruction g fuel id s = Ok tt s' ->
  code s' = code s /\ llvm_values s' = llvm_values s /\ status s' = ABORTED.
Proof.
  intros Hi Hd H. destruct fuel as [|fuel]; [discriminate H|]. simpl in H.
  unfold VisitInstruction_body in H.
  apply bind_Ok in H as (cur & s1 & Hl & H).
  apply lookup_instr_Ok in Hl as [Hl ->]. rewrite Hi in Hl. injection Hl as <-.
  apply bind_Ok in H as (x & s2 & Hg & H). apply get_Ok in Hg as [-> ->].
  cbv zeta in H.
  apply bind_Ok in H as ([] & s3 & Hm & H). apply modify_Ok in Hm as ->.
  apply bind_Ok in H as ([] & s4 & Hb & H). apply modify_Ok in H as ->.
  rewrite Hd in Hb.
  apply bind_Ok in Hb as ([] & s5 & Hu & Hb).
  assert (Hs5 : status s5 = ABORTED /\ code s5 = code s /\
                llvm_values s5 = llvm_values s).
  { destruct (operands i) as [|o0 os].
    - apply modify_Ok in Hu as ->. auto.
    - apply bind_Ok in Hu as ([] & s6 & Hc & Hu).
      apply check_Ok in Hc as [_ ->]. apply modify_Ok in Hu as ->. auto. }
  destruct Hs5 as (Hst & Hc5 & Hv5).
  pose proof (dummy_uses_loop_Ok _ _ _ _ Hb) as [Hc4 Hv4].
  pose proof (KA_dummy_uses_loop g _ _ _ _ Hb Hst) as Hst4.
  cbn. split_and!; congruence.
Qed.

Lemma VisitInstruction_dummy_uses_witness :
  match VisitInstruction g_control 1 1 (building ∅ 0) with
  | Ok _ s' => code s' = [] /\ llvm_values s' = ∅ /\ status s' = ABORTED
  | Fatal _ => False
  end.
Proof.
  destruct (VisitInstruction g_control 1 1 (building ∅ 0)) as [[] s'|m] eqn:E;
    [|vm_compute in E; discriminate E].
  exact (VisitInstruction_dummy_uses g_control 1 1
           (mkInstr 1 OStackCheck RNone false true [2; 0]%nat false None
              false false false) (building ∅ 0) s' eq_refl eq_refl E).
Defined.

Lemma DoBasicBlock_leaves_block_state_witness :
  match DoBasicBlock g_add 10
          (mkBlock 0 true [] [] [] None None [0; 1; 2; 3; 4; 5; 6; 7; 8; 9]%nat)
          None (building {[0%nat := []]} 1) with
  | Ok _ s' =>
      current_block s' = None /\ next_block s' = None /\
      is_Some (llvm_blocks s' !! 0%nat)
  | Fatal _ => False
  end.
Proof.
  destruct (DoBasicBlock g_add 10
              (mkBlock 0 true [] [] [] None None [0; 1; 2; 3; 4; 5; 6; 7; 8; 9]%nat)
              None (building {[0%nat := []]} 1)) as [[] s'|m] eqn:E;
    [|vm_compute in E; discriminate E].
  destruct (DoBasicBlock_leaves_block_state _ _ _ _ _ _ E) as (_ & H1 & H2 & H3 & _).
  auto.
Defined.

Lemma DoBasicBlock_start_block_witness :
  match DoBasicBlock g_add 10
          (mkBlock 0 true [] [] [] None None [0; 1; 2; 3; 4; 5; 6; 7; 8; 9]%nat)
          None (building {[0%nat := []]} 1) with
  | Ok _ s' =>
      block_envs s' !! 0%nat = Some (start_environment g_add) /\
      block_argcs s' !! 0%nat = Some 0 /\ argument_count s' = 0
  | Fatal _ => False
  end.
Proof.
  destruct (DoBasicBlock g_add 10
              (mkBlock 0 true [] [] [] None None [0; 1; 2; 3; 4; 5; 6; 7; 8; 9]%nat)
              None (building {[0%nat := []]} 1)) as [[] s'|m] eqn:E;
    [|vm_compute in E; discriminate E].
  exact (DoBasicBlock_start_block _ _ _ _ _ _ (eq_refl : is_start_block (mkBlock 0 true [] [] [] None None [0; 1; 2; 3; 4; 5; 6; 7; 8; 9]%nat) = true) E).
Defined.

Lemma Build_success_witness :
  match Build g_add 10 (initial_builder {[0%nat := []]} 1) with
  | Ok (Some c) s' =>
      status s' = DONE /\ chunk_code c = code s' /\
      is_Some (llvm_blocks s' !! 0%nat)
  | _ => False
  end.
Proof.
  destruct (Build g_add 10 (initial_builder {[0%nat := []]} 1))
    as [[c|] s'|e] eqn:E; [|vm_compute in E; discriminate E..].
  destruct (Build_success _ _ _ _ _ E) as (H1 & H2 & _ & H4).
  split_and!; [exact H1 | exact H2 |].
  apply (H4 (mkBlock 0 true [] [] [] None None [0; 1; 2; 3; 4; 5; 6; 7; 8; 9]%nat)).
  left.
Defined.

Lemma Equals_Integer32 (r : Representation) :
  Equals r RInteger32 = true -> r = RInteger32.
Proof. destruct r; simpl; congruence. Qed.

(** [DoCompareNumericAndBranch] on 32-bit integers: both operands have
    the instruction's representation, the comparison predicate is
    [TokenToPredicate] of the token with the operands' [uint32] flags, and
    the last two pieces of code are the comparison and the conditional
    branch on it to the two successors' LLVM blocks, which the branch
    instruction becomes the value of. *)
Theorem DoCompareNumericAndBranch_integer32 (g : HGraph) (fuel : nat)
    (self : HInstruction) (tok : Token) (l r s0 s1 : nat) (s s' : Builder) :
  representation self = RInteger32 ->
  DoCompareNumericAndBranch g (Use g fuel) self tok l r s0 s1 s = Ok tt s' ->
  exists li ri p x y b0 b1 pre,
    find_instr g l = Some li /\ find_instr g r = Some ri /\
    representation li = RInteger32 /\ representation ri = RInteger32 /\
    TokenToPredicate tok (is_uint32 li || is_uint32 ri) = Some p /\
    llvm_blocks s' !! s0 = Some b0 /\ llvm_blocks s' !! s1 = Some b1 /\
    llvm_values s' !! instr_id self = Some (LCondBr (LICmp p x y) b0 b1) /\
    code s' = pre ++ [IEmit (LICmp p x y); IEmit (LCondBr (LICmp p x y) b0 b1)] /\
    prefix (code s) pre.
Proof.
  intros Hr H. unfold DoCompareNumericAndBranch in H. rewrite Hr in H.
  apply bind_Ok in H as (li & sa & Hl & H). apply lookup_instr_Ok in Hl as [Hl ->].
  apply bind_Ok in H as (ri & sb & Hri & H). apply lookup_instr_Ok in Hri as [Hri ->].
  apply bind_Ok in H as ([] & sc & Hc & H). apply check_Ok in Hc as [Hel ->].
  apply bind_Ok in H as ([] & sd & Hc & H). apply check_Ok in Hc as [Her ->].
  apply bind_Ok in H as (p & se & Hp & H).
  destruct (TokenToPredicate tok _) as [p'|] eqn:Ep; [|discriminate Hp].
  apply mret_Ok in Hp as [-> ->]. simpl in H.
  apply bind_Ok in H as (x & s2 & Hx & H).
  apply bind_Ok in H as (y & s3 & Hy & H).
  apply bind_Ok in H as ([] & s4 & He & H). apply modify_Ok in He as ->.
  apply bind_Ok in H as (b0 & s5 & Hb0 & H).
  apply bind_Ok in H as (b1 & s6 & Hb1 & H).
  apply bind_Ok in H as ([] & s7 & He & H). apply modify_Ok in He as ->.
  apply modify_Ok in H as ->.
  pose proof (HS_Use g fuel l _ _ _ Hx) as (Hp2 & _).
  pose proof (HS_Use g fuel r _ _ _ Hy) as (Hp3 & _).
  pose proof (use_block_lookup _ _ _ _ Hb0) as Hl0.
  pose proof (use_block_lookup _ _ _ _ Hb1) as Hl1.
  pose proof (GR_use_block _ _ _ _ Hb1) as (Hc6 & Hsub & _).
  exists li, ri, p', x, y, b0, b1, (code s3).
  cbn. split_and!; auto using Equals_Integer32.
  - eapply lookup_weaken; eauto.
  - apply lookup_insert_eq.
  - apply use_block_Ok in Hb0 as [[_ ->]|(_ & _ & ->)];
      apply use_block_Ok in Hb1 as [[_ ->]|(_ & _ & ->)]; cbn;
      rewrite <- app_assoc; reflexivity.
  - etransitivity; eauto.
Qed.

Lemma DoCompareNumericAndBranch_integer32_witness :
  match DoCompareNumericAndBranch g_compare (Use g_compare 5)
          (mk_instr 3 (OCompareNumericAndBranch LT 1 2 1 2) RInteger32 false)
          LT 1 2 1 2 (set_llvm_values {[1%nat := LArg 2]} (building ∅ 0)) with
  | Ok _ s' =>
      exists p x y b0 b1,
        TokenToPredicate LT false = Some p /\
        llvm_values s' !! 3%nat = Some (LCondBr (LICmp p x y) b0 b1)
  | Fatal _ => False
  end.
Proof.
  destruct (DoCompareNumericAndBranch g_compare (Use g_compare 5)
          (mk_instr 3 (OCompareNumericAndBranch LT 1 2 1 2) RInteger32 false)
          LT 1 2 1 2 (set_llvm_values {[1%nat := LArg 2]} (building ∅ 0)))
    as [[] s'|m] eqn:E; [|vm_compute in E; discriminate E].
  destruct (DoCompareNumericAndBranch_integer32 g_compare 5
             (mk_instr 3 (OCompareNumericAndBranch LT 1 2 1 2) RInteger32 false)
             _ _ _ _ _ _ _ eq_refl E)
    as (li & ri & p & x & y & b0 & b1 & pre & Hl & Hr & _ & _ & Hp & _ & _ & Hv & _).
  injection Hl as <-. injection Hr as <-.
  exists p, x, y, b0, b1. split; [exact Hp | exact Hv].
Defined.

Lemma use_value_present (g : HGraph) (visit : nat -> M unit) (v : nat)
    (i : HInstruction) (x : LValue) (s : Builder) :
  find_instr g v = Some i -> llvm_values s !! v = Some x ->
  use_value_with g visit v s = Ok x s.
Proof.
  intros Hi Hx. unfold use_value_with, lookup_instr, get_llvm_value, get.
  unfold mbind, M_bind, mret, M_ret. rewrite Hi, Hx. cbn.
  rewrite andb_false_r. rewrite Hx. reflexivity.
Qed.

Lemma smi_word_roundtrip (args : nat -> Z) (x : LValue) (w : Z) :
  eval_i64 args x = Some w -> w mod 2 ^ 32 = 0 ->
  eval_i64 args (LShl (LLShr x 32) 32) = Some (w mod two64).
Proof.
  intros Hx Hw. simpl. rewrite Hx. simpl. f_equal.
  rewrite Z.shiftl_mul_pow2, Z.shiftr_div_pow2 by lia.
  rewrite Z.mul_comm, <- (proj2 (Z.div_exact w (2 ^ 32) ltac:(lia)) Hw).
  reflexivity.
Qed.

(** Untagging a tagged value ([DoChange] from tagged to int32) and tagging
    the result again ([DoChange] back to tagged) with 32-bit Smi values
    gives the value [(x >> 32) << 32]: a word whose low 32 bits are zero,
    as a Smi's are, comes back unchanged. *)
Theorem DoChange_untag_retag (g : HGraph) (fuel a : nat) (ia self_b self_c : HInstruction)
    (x : LValue) (s s' : Builder) :
  smi_values_are_32_bits g = true ->
  find_instr g a = Some ia ->
  find_instr g (instr_id self_b) = Some self_b ->
  can_overflow self_c = false ->
  llvm_values s !! a = Some x ->
  (DoChange g (Use g fuel) self_b RTagged RInteger32 a;;
   DoChange g (Use g fuel) self_c RInteger32 RTagged (instr_id self_b)) s = Ok tt s' ->
  llvm_values s' !! instr_id self_c = Some (LShl (LLShr x 32) 32) /\
  (forall args w, eval_i64 args x = Some w -> w mod 2 ^ 32 = 0 ->
     eval_i64 args (LShl (LLShr x 32) 32) = Some (w mod two64)).
Proof.
  intros H32 Ha Hb Hc Hx H. split; [|intros args; apply smi_word_roundtrip].
  apply bind_Ok in H as ([] & s1 & H1 & H).
  assert (Hs1 : llvm_values s1 !! instr_id self_b = Some (LLShr x 32)).
  { unfold DoChange in H1. apply bind_Ok in H1 as (val & sa & Hl & H1).
    apply lookup_instr_Ok in Hl as [_ ->]. cbn in H1.
    assert (Hrun : SmiToInteger32 g (Use g fuel) a s =
                   Ok (Some (LLShr x 32)) (set_code (code s ++ [IEmit (LLShr x 32)]) s)).
    { unfold SmiToInteger32. rewrite H32. unfold mbind at 1, M_bind at 1.
      unfold Use. rewrite (use_value_present _ _ _ _ _ _ Ha Hx). reflexivity. }
    apply bind_Ok in H1 as ([] & sb & Hck & H1). apply mret_Ok in Hck as [_ ->].
    destruct (_ || _);
      apply bind_Ok in H1 as (r & sc & Hsc & H1); rewrite Hrun in Hsc;
      injection Hsc as <- <-; apply modify_Ok in H1 as ->;
      apply lookup_insert_eq. }
  unfold DoChange in H. apply bind_Ok in H as (val & sa & Hl & H).
  apply lookup_instr_Ok in Hl as [_ ->]. cbn in H. rewrite Hc in H. cbn in H.
  apply bind_Ok in H as (r & sb & Hi & H).
  unfold Integer32ToSmi in Hi. rewrite H32 in Hi.
  apply bind_Ok in Hi as (y & sc & Hy & Hi).
  unfold Use in Hy. rewrite (use_value_present _ _ _ _ _ _ Hb Hs1) in Hy.
  injection Hy as <- <-.
  apply bind_Ok in Hi as ([] & sd & He & Hi). apply modify_Ok in He as ->.
  apply mret_Ok in Hi as [-> ->]. apply modify_Ok in H as ->.
  apply lookup_insert_eq.
Qed.

Lemma DoChange_untag_retag_witness :
  match (DoChange g_add (Use g_add 5)
           (mk_instr 4 (OChange RTagged RInteger32 2) RInteger32 false)
           RTagged RInteger32 2;;
         DoChange g_add (Use g_add 5)
           (mk_instr 7 (OChange RInteger32 RTagged 4) RTagged false)
           RInteger32 RTagged 4)
          (set_llvm_values {[2%nat := LArg 4]} (building ∅ 0)) with
  | Ok _ s' => llvm_values s' !! 7%nat = Some (LShl (LLShr (LArg 4) 32) 32)
  | Fatal _ => False
  end.
Proof.
  destruct ((DoChange g_add (Use g_add 5)
           (mk_instr 4 (OChange RTagged RInteger32 2) RInteger32 false)
           RTagged RInteger32 2;;
         DoChange g_add (Use g_add 5)
           (mk_instr 7 (OChange RInteger32 RTagged 4) RTagged false)
           RInteger32 RTagged 4)
          (set_llvm_values {[2%nat := LArg 4]} (building ∅ 0)))
    as [[] s'|m] eqn:E; [|vm_compute in E; discriminate E].
  exact (proj1 (DoChange_untag_retag g_add 5 2
    (mk_instr 2 (OParameter 1) RTagged false)
    (mk_instr 4 (OChange RTagged RInteger32 2) RInteger32 false)
    (mk_instr 7 (OChange RInteger32 RTagged 4) RTagged false)
    (LArg 4) (set_llvm_values {[2%nat := LArg 4]} (building ∅ 0)) s' eq_refl eq_refl eq_refl eq_refl eq_refl E)).
Defined.

(** [DoParameter] for any index [i], declared or not: the argument walk
    stops at position [max 0 (N + 2 - i)] of the [N + 3] arguments, so an
    index at or past [N + 2] binds argument 0 (the context) and a negative
    index binds a position past the last argument [N + 2]. Nothing else
    in the builder changes. *)
Theorem DoParameter_any_index (g : HGraph) (self : HInstruction) (i : Z)
    (s : Builder) :
  DoParameter g self i s =
  Ok tt (set_llvm_values
           (<[instr_id self := LArg (Z.to_nat (num_parameters (info g) + 2 - i))]>
              (llvm_values s)) s).
Proof.
  unfold DoParameter, set_llvm_value, modify.
  replace (parameter_position (num_parameters (info g)) i)
    with (Z.to_nat (num_parameters (info g) + 2 - i)); [reflexivity|].
  unfold parameter_position.
  destruct (Z.le_gt_cases (- i + (num_parameters (info g) + 3)) 0) as [Hle|Hgt].
  - replace (Z.to_nat (- i + (num_parameters (info g) + 3))) with 0%nat by lia.
    simpl. lia.
  - rewrite param_walk_count by lia. lia.
Qed.

Lemma eval_shiftl_const (args : nat -> Z) (z k : Z) :
  0 <= k ->
  eval_i64 args (LInt64 (Z.shiftl z k)) = eval_i64 args (LShl (LInt64 z) k).
Proof.
  intros Hk. simpl. f_equal. rewrite !Z.shiftl_mul_pow2 by lia.
  unfold two64. rewrite Z.mul_mod_idemp_l by lia. reflexivity.
Qed.

(** The word [DoConstant] builds for a Smi constant (in Smi
    representation, or tagged with a Smi handle) is the word that
    [Integer32ToSmi] computes at run time from the untagged integer, for
    either Smi size. *)
Theorem DoConstant_smi_matches_Integer32ToSmi (g : HGraph)
    (use : nat -> M LValue) (self : HInstruction) (z : Z) (h : ConstHandle)
    (v : nat) (s s1 s2 s2' s3 : Builder) (r : LValue) :
  representation self = RSmi \/ (representation self = RTagged /\ h = HSmi z) ->
  DoConstant g self z h s = Ok tt s1 ->
  use v s2 = Ok (LInt64 z) s2' ->
  Integer32ToSmi g use v s2 = Ok r s3 ->
  exists c, llvm_values s1 !! instr_id self = Some c /\
    forall args, eval_i64 args c = eval_i64 args r.
Proof.
  intros Hrep Hc Hu Hi.
  unfold Integer32ToSmi in Hi. apply bind_Ok in Hi as (x & sa & Hx & Hi).
  rewrite Hu in Hx. injection Hx as <- <-.
  apply bind_Ok in Hi as ([] & sb & _ & Hi). apply mret_Ok in Hi as [-> _].
  assert (Hk : 0 <= kSmiShift (smi_values_are_32_bits g))
    by (unfold kSmiShift, kSmiTagSize, kSmiShiftSize; destruct (smi_values_are_32_bits g); lia).
  unfold DoConstant in Hc.
  destruct Hrep as [Hr|[Hr ->]]; rewrite Hr in Hc; apply modify_Ok in Hc as ->;
    eexists; (split; [apply lookup_insert_eq|]); intros args;
    apply eval_shiftl_const, Hk.
Qed.

Lemma DoConstant_smi_matches_Integer32ToSmi_witness :
  match DoConstant g_arith (mk_instr 9 (OConstant 1 (HSmi 1)) RSmi false)
          1 (HSmi 1) (building ∅ 0),
        Integer32ToSmi g_arith (Use g_arith 5) 2 (building ∅ 0) with
  | Ok _ s1, Ok r _ =>
      exists c, llvm_values s1 !! 9%nat = Some c /\
        forall args, eval_i64 args c = eval_i64 args r
  | _, _ => False
  end.
Proof.
  destruct (DoConstant g_arith (mk_instr 9 (OConstant 1 (HSmi 1)) RSmi false)
          1 (HSmi 1) (building ∅ 0)) as [[] s1|m] eqn:E1;
    [|vm_compute in E1; discriminate E1].
  destruct (Integer32ToSmi g_arith (Use g_arith 5) 2 (building ∅ 0))
    as [r s3|m] eqn:E3; [|vm_compute in E3; discriminate E3].
  destruct (Use g_arith 5 2 (building ∅ 0)) as [x s2'|m] eqn:E2;
    [|vm_compute in E2; discriminate E2].
  assert (Hx : x = LInt64 1) by (vm_compute in E2; congruence). subst x.
  exact (DoConstant_smi_matches_Integer32ToSmi g_arith (Use g_arith 5)
           (mk_instr 9 (OConstant 1 (HSmi 1)) RSmi false) 1 (HSmi 1) 2
           (building ∅ 0) s1 (building ∅ 0) s2' s3 r (or_introl eq_refl) E1 E2 E3).
Defined.




(** What any [VisitInstruction] that completes leaves alone: code is only
    appended, an LLVM block once created stays the block's, the blocks'
    environments and argument counts, the outgoing argument count and the
    current and next block are unchanged, and the status either stays or
    becomes [ABORTED]. *)
Theorem VisitInstruction_frame (g : HGraph) (fuel id : nat) (s s' : Builder) :
  VisitInstruction g fuel id s = Ok tt s' ->
  prefix (code s) (code s') /\
  (forall k lb, llvm_blocks s !! k = Some lb -> llvm_blocks s' !! k = Some lb) /\
  block_envs s' = block_envs s /\ block_argcs s' = block_argcs s /\
  argument_count s' = argument_count s /\
  current_block s' = current_block s /\ next_block s' = next_block s /\
  (status s' = status s \/ status s' = ABORTED).
Proof.
  intros H.
  destruct (HS_VisitInstruction g fuel id _ _ _ H)
    as (Hc & Hb & _ & Ha & Hbe & Hba & Hcb & Hnb & Hst).
  split_and!; auto. intros k lb Hk. eapply lookup_weaken; eauto.
Qed.

Lemma VisitInstruction_frame_witness :
  match VisitInstruction g_arith 3 4 (set_llvm_values {[1%nat := LArg 3]} (building ∅ 0)) with
  | Ok _ s' => prefix [] (code s') /\ current_block s' = None /\ status s' = BUILDING
  | Fatal _ => False
  end.
Proof.
  destruct (VisitInstruction g_arith 3 4 (set_llvm_values {[1%nat := LArg 3]} (building ∅ 0)))
    as [[] s'|m] eqn:E; [|vm_compute in E; discriminate E].
  destruct (VisitInstruction_frame _ _ _ _ _ E) as (Hc & _ & _ & _ & _ & Hcb & _ & Hst).
  split_and!; [exact Hc | exact Hcb |].
  vm_compute in E. injection E as <-. reflexivity.
Defined.
